(** * The unwritten studio: prompt form, generation flow and chat transcript

    A shallow embedding of [App.tsx] and [components/PromptForm.tsx]:
    the form state of [PromptForm], its event handlers and render guards,
    [fileToBase64], and the [handleGenerate] / [handleSendMessage] flows
    of [App].  React state is a record, a handler is a function on that
    record, and an [await] splits a handler into the part that runs
    before the promise settles and the part that runs after. *)

From Stdlib Require Import NArith Lia.
From stdpp Require Import base option list strings gmap.

Local Open Scope N_scope.

(** ** JavaScript strings

    A JS string is a sequence of UTF-16 code units. *)

Definition code_unit := N.
Definition jsstring := list code_unit.

(** An ASCII literal as a JS string. *)
Definition js (s : string) : jsstring :=
  (λ a, Ascii.N_of_ascii a) <$> String.list_ascii_of_string s.

(** ECMAScript [WhiteSpace] and [LineTerminator] code points, the ones
    [String.prototype.trim] removes. *)
Definition isWhiteSpace (c : code_unit) : bool :=
  (c =? 0x09) || (c =? 0x0A) || (c =? 0x0B) || (c =? 0x0C) || (c =? 0x0D)
  || (c =? 0x20) || (c =? 0xA0) || (c =? 0x1680)
  || ((0x2000 <=? c) && (c <=? 0x200A))
  || (c =? 0x2028) || (c =? 0x2029) || (c =? 0x202F) || (c =? 0x205F)
  || (c =? 0x3000) || (c =? 0xFEFF).

Fixpoint trimStart (s : jsstring) : jsstring :=
  match s with
  | c :: s' => if isWhiteSpace c then trimStart s' else s
  | [] => []
  end.

Definition trimEnd (s : jsstring) : jsstring := reverse (trimStart (reverse s)).

Definition trim (s : jsstring) : jsstring := trimEnd (trimStart s).

(** JS truthiness of a string: [""] is falsy. *)
Definition truthy (s : jsstring) : bool :=
  match s with [] => false | _ :: _ => true end.

(** [s.split(sep)] for a one-unit separator; never returns the empty list. *)
Fixpoint split (sep : code_unit) (s : jsstring) : list jsstring :=
  match s with
  | [] => [[]]
  | c :: s' =>
      if c =? sep then [] :: split sep s'
      else match split sep s' with
           | seg :: segs => (c :: seg) :: segs
           | [] => [[c]]
           end
  end.

Definition comma : code_unit := 0x2C.

(** ** Values thrown and promises settled *)

(** What a [catch] clause can receive: an [Error] instance with its
    [message], or any other value (an event, a string, ...). *)
Inductive Thrown :=
  | ErrorObj (message : jsstring)
  | OtherValue (tag : nat).

Inductive Settled (A : Type) :=
  | Resolved (a : A)
  | Rejected (reason : Thrown).
Arguments Resolved {A} a.
Arguments Rejected {A} reason.

Definition isRejected {A} (p : Settled A) : bool :=
  match p with Rejected _ => true | Resolved _ => false end.

(** ** Media ingestion: [fileToBase64] *)

(** A browser [File], known by its handle only. *)
Definition File := nat.

(** [{file, base64}], the shape of both [ImageFile] and [VideoFile]. *)
Record EncodedFile := { file : File; base64 : jsstring }.
Definition ImageFile := EncodedFile.
Definition VideoFile := EncodedFile.

#[global] Instance EncodedFile_eq_dec : EqDecision EncodedFile.
Proof. solve_decision. Defined.

(** The two ways [reader.readAsDataURL(file)] ends: [onload] with
    [reader.result], or [onerror] with a progress event. *)
Inductive ReaderEvent :=
  | onload (result : jsstring)
  | onerror (error : nat).

Definition fileToBase64 (f : File) (ev : ReaderEvent) : Settled EncodedFile :=
  match ev with
  | onload result =>
      match split comma result !! 1%nat with
      | Some base64 =>
          if truthy base64 then Resolved {| file := f; base64 := base64 |}
          else Rejected (ErrorObj (js "Failed to read file as base64."))
      | None => Rejected (ErrorObj (js "Failed to read file as base64."))
      end
  | onerror error => Rejected (OtherValue error)
  end.

Definition fileToImageFile : File → ReaderEvent → Settled ImageFile := fileToBase64.
Definition fileToVideoFile : File → ReaderEvent → Settled VideoFile := fileToBase64.

(** The string [readAsDataURL] produces for a file of media type [mime]
    whose bytes encode to [payload]: [data:<mime>;base64,<payload>]. *)
Definition dataURLPrefix (mime : jsstring) : jsstring :=
  js "data:" ++ mime ++ js ";base64,".
Definition dataURL (mime payload : jsstring) : jsstring :=
  dataURLPrefix mime ++ payload.

(** The base64 alphabet: [A-Z], [a-z], [0-9], [+], [/] and the padding [=]. *)
Definition isBase64Char (c : code_unit) : bool :=
  ((0x41 <=? c) && (c <=? 0x5A)) || ((0x61 <=? c) && (c <=? 0x7A))
  || ((0x30 <=? c) && (c <=? 0x39)) || (c =? 0x2B) || (c =? 0x2F) || (c =? 0x3D).

(** [needle] occurs in [s] as a contiguous run. *)
Definition contains (s needle : jsstring) : Prop :=
  ∃ before after, s = before ++ needle ++ after.

(** ** The request model: [GenerateVideoParams] *)

(** Modelled from the spec: the enums [GenerationMode], [VeoModel],
    [AspectRatio] and [Resolution] are declared in [types.ts], which is
    not among the sources; the constructors are the members the code
    names ([VeoModel.VEO] is the spec's Standard engine, [VEO_FAST] its
    Fast one). *)
Inductive GenerationMode :=
  TEXT_TO_VIDEO | ANIMATE_IMAGE | REFERENCES_TO_VIDEO | EXTEND_VIDEO.
Inductive VeoModel := VEO_FAST | VEO.
Inductive AspectRatio := LANDSCAPE | PORTRAIT.
Inductive Resolution := P720 | P1080.

#[global] Instance GenerationMode_eq_dec : EqDecision GenerationMode.
Proof. solve_decision. Defined.
#[global] Instance VeoModel_eq_dec : EqDecision VeoModel.
Proof. solve_decision. Defined.
#[global] Instance AspectRatio_eq_dec : EqDecision AspectRatio.
Proof. solve_decision. Defined.
#[global] Instance Resolution_eq_dec : EqDecision Resolution.
Proof. solve_decision. Defined.

(** A remote video object of the SDK ([Video]), known by its handle. *)
Definition Video := nat.

(** The object [handleSubmit] builds, field for field. *)
Record GenerateVideoParams := {
  prompt : jsstring;
  model : VeoModel;
  aspectRatio : AspectRatio;
  resolution : Resolution;
  mode : GenerationMode;
  startFrame : option ImageFile;
  endFrame : option ImageFile;
  referenceImages : list ImageFile;
  styleImage : option ImageFile;
  inputVideo : option VideoFile;
  inputVideoObject : option Video;
  isLooping : bool;
}.

(** The state setters of [PromptForm], one per [useState] cell. *)
Definition setPrompt v (p : GenerateVideoParams) :=
  {| prompt := v; model := model p; aspectRatio := aspectRatio p;
     resolution := resolution p; mode := mode p; startFrame := startFrame p;
     endFrame := endFrame p; referenceImages := referenceImages p;
     styleImage := styleImage p; inputVideo := inputVideo p;
     inputVideoObject := inputVideoObject p; isLooping := isLooping p |}.
Definition setModel v (p : GenerateVideoParams) :=
  {| prompt := prompt p; model := v; aspectRatio := aspectRatio p;
     resolution := resolution p; mode := mode p; startFrame := startFrame p;
     endFrame := endFrame p; referenceImages := referenceImages p;
     styleImage := styleImage p; inputVideo := inputVideo p;
     inputVideoObject := inputVideoObject p; isLooping := isLooping p |}.
Definition setAspectRatio v (p : GenerateVideoParams) :=
  {| prompt := prompt p; model := model p; aspectRatio := v;
     resolution := resolution p; mode := mode p; startFrame := startFrame p;
     endFrame := endFrame p; referenceImages := referenceImages p;
     styleImage := styleImage p; inputVideo := inputVideo p;
     inputVideoObject := inputVideoObject p; isLooping := isLooping p |}.
Definition setResolution v (p : GenerateVideoParams) :=
  {| prompt := prompt p; model := model p; aspectRatio := aspectRatio p;
     resolution := v; mode := mode p; startFrame := startFrame p;
     endFrame := endFrame p; referenceImages := referenceImages p;
     styleImage := styleImage p; inputVideo := inputVideo p;
     inputVideoObject := inputVideoObject p; isLooping := isLooping p |}.
Definition setGenerationMode v (p : GenerateVideoParams) :=
  {| prompt := prompt p; model := model p; aspectRatio := aspectRatio p;
     resolution := resolution p; mode := v; startFrame := startFrame p;
     endFrame := endFrame p; referenceImages := referenceImages p;
     styleImage := styleImage p; inputVideo := inputVideo p;
     inputVideoObject := inputVideoObject p; isLooping := isLooping p |}.
Definition setStartFrame v (p : GenerateVideoParams) :=
  {| prompt := prompt p; model := model p; aspectRatio := aspectRatio p;
     resolution := resolution p; mode := mode p; startFrame := v;
     endFrame := endFrame p; referenceImages := referenceImages p;
     styleImage := styleImage p; inputVideo := inputVideo p;
     inputVideoObject := inputVideoObject p; isLooping := isLooping p |}.
Definition setEndFrame v (p : GenerateVideoParams) :=
  {| prompt := prompt p; model := model p; aspectRatio := aspectRatio p;
     resolution := resolution p; mode := mode p; startFrame := startFrame p;
     endFrame := v; referenceImages := referenceImages p;
     styleImage := styleImage p; inputVideo := inputVideo p;
     inputVideoObject := inputVideoObject p; isLooping := isLooping p |}.
(** [setReferenceImages] is always called with an updater function. *)
Definition setReferenceImages (f : list ImageFile → list ImageFile)
    (p : GenerateVideoParams) :=
  {| prompt := prompt p; model := model p; aspectRatio := aspectRatio p;
     resolution := resolution p; mode := mode p; startFrame := startFrame p;
     endFrame := endFrame p; referenceImages := f (referenceImages p);
     styleImage := styleImage p; inputVideo := inputVideo p;
     inputVideoObject := inputVideoObject p; isLooping := isLooping p |}.
Definition setStyleImage v (p : GenerateVideoParams) :=
  {| prompt := prompt p; model := model p; aspectRatio := aspectRatio p;
     resolution := resolution p; mode := mode p; startFrame := startFrame p;
     endFrame := endFrame p; referenceImages := referenceImages p;
     styleImage := v; inputVideo := inputVideo p;
     inputVideoObject := inputVideoObject p; isLooping := isLooping p |}.
Definition setInputVideo v (p : GenerateVideoParams) :=
  {| prompt := prompt p; model := model p; aspectRatio := aspectRatio p;
     resolution := resolution p; mode := mode p; startFrame := startFrame p;
     endFrame := endFrame p; referenceImages := referenceImages p;
     styleImage := styleImage p; inputVideo := v;
     inputVideoObject := inputVideoObject p; isLooping := isLooping p |}.
Definition setInputVideoObject v (p : GenerateVideoParams) :=
  {| prompt := prompt p; model := model p; aspectRatio := aspectRatio p;
     resolution := resolution p; mode := mode p; startFrame := startFrame p;
     endFrame := endFrame p; referenceImages := referenceImages p;
     styleImage := styleImage p; inputVideo := inputVideo p;
     inputVideoObject := v; isLooping := isLooping p |}.
Definition setIsLooping v (p : GenerateVideoParams) :=
  {| prompt := prompt p; model := model p; aspectRatio := aspectRatio p;
     resolution := resolution p; mode := mode p; startFrame := startFrame p;
     endFrame := endFrame p; referenceImages := referenceImages p;
     styleImage := styleImage p; inputVideo := inputVideo p;
     inputVideoObject := inputVideoObject p; isLooping := v |}.

(** [useState(initialValues?.x ?? default)] for the twelve cells. *)
Definition defaultFields : GenerateVideoParams :=
  {| prompt := []; model := VEO_FAST; aspectRatio := LANDSCAPE;
     resolution := P720; mode := TEXT_TO_VIDEO; startFrame := None;
     endFrame := None; referenceImages := []; styleImage := None;
     inputVideo := None; inputVideoObject := None; isLooping := false |}.

Definition initialFields (initialValues : option GenerateVideoParams)
    : GenerateVideoParams :=
  default defaultFields initialValues.

(** The effect keyed on [generationMode]: the mode-entry defaults. *)
Definition modeEffect (p : GenerateVideoParams) : GenerateVideoParams :=
  match mode p with
  | REFERENCES_TO_VIDEO => setResolution P720 (setAspectRatio LANDSCAPE (setModel VEO p))
  | EXTEND_VIDEO => setResolution P720 p
  | _ => p
  end.

(** ** [PromptForm] *)

Record FormState := {
  fields : GenerateVideoParams;
  isSettingsOpen : bool;
  isModeSelectorOpen : bool;
}.

Definition onFields (f : GenerateVideoParams → GenerateVideoParams) (s : FormState) :=
  {| fields := f (fields s); isSettingsOpen := isSettingsOpen s;
     isModeSelectorOpen := isModeSelectorOpen s |}.
Definition setIsSettingsOpen v (s : FormState) :=
  {| fields := fields s; isSettingsOpen := v;
     isModeSelectorOpen := isModeSelectorOpen s |}.
Definition setIsModeSelectorOpen v (s : FormState) :=
  {| fields := fields s; isSettingsOpen := isSettingsOpen s;
     isModeSelectorOpen := v |}.

(** The form as first rendered: the initialisers, then the mount effects
    (the [initialValues] effect stores the same values again, the mode
    effect applies the defaults of the initial mode). *)
Definition mountForm (initialValues : option GenerateVideoParams) : FormState :=
  {| fields := modeEffect (initialFields initialValues);
     isSettingsOpen := false; isModeSelectorOpen := false |}.

Definition handleSubmit (s : FormState) : GenerateVideoParams := fields s.

(** The setter calls of [handleSelectMode], in the order of the source. *)
Definition handleSelectMode (m : GenerationMode) (s : FormState) : FormState :=
  onFields (setIsLooping false)
    (onFields (setInputVideoObject None)
      (onFields (setInputVideo None)
        (onFields (setStyleImage None)
          (onFields (setReferenceImages (λ _, []))
            (onFields (setEndFrame None)
              (onFields (setStartFrame None)
                (setIsModeSelectorOpen false
                  (onFields (setGenerationMode m) s)))))))).

(** A click on a mode button: [handleSelectMode], then the mode effect,
    which React runs only when [generationMode] changed. *)
Definition selectMode (m : GenerationMode) (s : FormState) : FormState :=
  let s' := handleSelectMode m s in
  if decide (mode (fields s) = m) then s' else onFields modeEffect s'.

Record MotionPreset := {
  preset_id : jsstring;
  preset_label : jsstring;
  preset_prompt : jsstring;
}.

Definition ANIMATION_PRESETS : list MotionPreset := [
  {| preset_id := js "page_turn"; preset_label := js "Turn Page";
     preset_prompt := js "The person in the scene smoothly turns a page of the book, followed immediately by turning another page in the same direction. Maintain the serene atmosphere and paper-cut art style." |};
  {| preset_id := js "gentle_sway"; preset_label := js "Gentle Sway";
     preset_prompt := js "Add a subtle, cinematic swaying motion to the foreground elements, as if caught in a very light breeze. Keep the focus sharp on the central character." |};
  {| preset_id := js "dynamic_zoom"; preset_label := js "Deep Zoom";
     preset_prompt := js "A slow, dramatic camera zoom-in toward the subject, creating a sense of intimacy and depth while preserving all fine details." |};
  {| preset_id := js "particle_flow"; preset_label := js "Floating Particles";
     preset_prompt := js "Tiny particles of light and dust float gently across the frame, catching the light and adding a magical atmosphere to the scene." |}
].

Definition applyPreset (preset : MotionPreset) : FormState → FormState :=
  onFields (setPrompt (preset_prompt preset)).

Definition selectableModes : list GenerationMode :=
  [TEXT_TO_VIDEO; ANIMATE_IMAGE; REFERENCES_TO_VIDEO].

Definition isRefMode (s : FormState) : bool :=
  bool_decide (mode (fields s) = REFERENCES_TO_VIDEO).
Definition isExtendMode (s : FormState) : bool :=
  bool_decide (mode (fields s) = EXTEND_VIDEO).
Definition isAnimateMode (s : FormState) : bool :=
  bool_decide (mode (fields s) = ANIMATE_IMAGE).

(** The [switch] that computes [isSubmitDisabled]. *)
Definition isSubmitDisabled (s : FormState) : bool :=
  let p := fields s in
  match mode p with
  | TEXT_TO_VIDEO => negb (truthy (trim (prompt p)))
  | ANIMATE_IMAGE => negb (bool_decide (is_Some (startFrame p)))
  | REFERENCES_TO_VIDEO =>
      let hasNoRefs := bool_decide (length (referenceImages p) = 0%nat) in
      let hasNoPrompt := negb (truthy (trim (prompt p))) in
      hasNoRefs || hasNoPrompt
  | EXTEND_VIDEO => negb (bool_decide (is_Some (inputVideoObject p)))
  end.

Definition tooltipText (s : FormState) : jsstring :=
  let p := fields s in
  match mode p with
  | TEXT_TO_VIDEO =>
      if isSubmitDisabled s then js "Please enter a description." else []
  | ANIMATE_IMAGE =>
      if isSubmitDisabled s then js "Upload a starting image." else []
  | REFERENCES_TO_VIDEO =>
      let hasNoRefs := bool_decide (length (referenceImages p) = 0%nat) in
      let hasNoPrompt := negb (truthy (trim (prompt p))) in
      if hasNoRefs && hasNoPrompt then js "Add references and a description."
      else if hasNoRefs then js "Add at least one reference image."
      else if hasNoPrompt then js "Please enter a description."
      else []
  | EXTEND_VIDEO =>
      if isSubmitDisabled s then js "Extension requires a base video." else []
  end.

(** The [disabled] props of the three settings selects. *)
Definition engineDisabled (s : FormState) : bool := isRefMode s.
Definition formatDisabled (s : FormState) : bool := isRefMode s || isExtendMode s.
Definition qualityDisabled (s : FormState) : bool := isRefMode s || isExtendMode s.

(** *** File uploads

    [handleFileChange] of [ImageUpload] / [VideoUpload] awaits the read
    and only then calls [onSelect]; between the two the form keeps
    handling events.  A read in flight is remembered with the [onSelect]
    it will call. *)

Inductive Slot := StartFrameSlot | EndFrameSlot | ReferenceSlot | BaseVideoSlot.

Record PendingRead := { slot : Slot; picked : File }.

(** The [onSelect] prop passed to the upload of each slot. *)
Definition onSelect (sl : Slot) (media : EncodedFile) : FormState → FormState :=
  match sl with
  | StartFrameSlot => onFields (setStartFrame (Some media))
  | EndFrameSlot => onFields (setEndFrame (Some media))
  | ReferenceSlot => onFields (setReferenceImages (λ imgs, imgs ++ [media]))
  | BaseVideoSlot => onFields (setInputVideo (Some media))
  end.

(** Whether [renderMediaUploads] puts the file input of a slot on the
    page: the upload is rendered by its mode's branch, and shows the
    input only while it holds no media. *)
Definition uploadRendered (sl : Slot) (s : FormState) : bool :=
  let p := fields s in
  match sl with
  | StartFrameSlot => isAnimateMode s && bool_decide (startFrame p = None)
  | EndFrameSlot =>
      isAnimateMode s && negb (isLooping p) && bool_decide (endFrame p = None)
  | ReferenceSlot => isRefMode s && bool_decide (length (referenceImages p) < 3)%nat
  | BaseVideoSlot => isExtendMode s && bool_decide (inputVideo p = None)
  end.

(** The rest of [handleFileChange] once the read has settled: [onSelect]
    on success, [console.error] alone on failure. *)
Definition handleFileChange_resume (sl : Slot) (r : Settled EncodedFile)
    (s : FormState) : FormState :=
  match r with
  | Resolved media => onSelect sl media s
  | Rejected _ => s
  end.

Fixpoint filterIndex {A} (keep : nat → bool) (i : nat) (l : list A) : list A :=
  match l with
  | [] => []
  | x :: l' =>
      if keep i then x :: filterIndex keep (S i) l'
      else filterIndex keep (S i) l'
  end.

(** [imgs.filter((_, i) => i !== index)] *)
Definition removeAt {A} (index : nat) (imgs : list A) : list A :=
  filterIndex (λ i, negb (Nat.eqb i index)) 0 imgs.

(** The loop checkbox's [onChange]. *)
Definition onLoopChange (checked : bool) (s : FormState) : FormState :=
  let s' := onFields (setIsLooping checked) s in
  if checked then onFields (setEndFrame None) s' else s'.

Record Form := { state : FormState; reads : list PendingRead }.

Inductive FormEvent :=
  | ToggleModeSelector
  | ClickOutside
  | SelectMode (m : GenerationMode)
  | ChangePrompt (value : jsstring)
  | ToggleSettings
  | ChangeEngine (value : VeoModel)
  | ChangeFormat (value : AspectRatio)
  | ChangeQuality (value : Resolution)
  | PickFile (sl : Slot) (f : File)
  | ReadSettles (i : nat) (ev : ReaderEvent)
  | RemoveStartFrame
  | RemoveEndFrame
  | RemoveReference (index : nat)
  | RemoveBaseVideo
  | ChangeLoop (checked : bool)
  | ClickPreset (i : nat).

Definition onState (f : FormState → FormState) (fm : Form) : Form :=
  {| state := f (state fm); reads := reads fm |}.

(** One event on the mounted form; [None] when the control is not on the
    page or is disabled in the current render. *)
Definition formStep (e : FormEvent) (fm : Form) : option Form :=
  let s := state fm in
  let p := fields s in
  match e with
  | ToggleModeSelector =>
      Some (onState (setIsModeSelectorOpen (negb (isModeSelectorOpen s))) fm)
  | ClickOutside => Some (onState (setIsModeSelectorOpen false) fm)
  | SelectMode m =>
      if isModeSelectorOpen s && bool_decide (m ∈ selectableModes)
      then Some (onState (selectMode m) fm) else None
  | ChangePrompt value => Some (onState (onFields (setPrompt value)) fm)
  | ToggleSettings =>
      Some (onState (setIsSettingsOpen (negb (isSettingsOpen s))) fm)
  | ChangeEngine value =>
      if isSettingsOpen s && negb (engineDisabled s)
      then Some (onState (onFields (setModel value)) fm) else None
  | ChangeFormat value =>
      if isSettingsOpen s && negb (formatDisabled s)
      then Some (onState (onFields (setAspectRatio value)) fm) else None
  | ChangeQuality value =>
      if isSettingsOpen s && negb (qualityDisabled s)
      then Some (onState (onFields (setResolution value)) fm) else None
  | PickFile sl f =>
      if uploadRendered sl s
      then Some {| state := s; reads := reads fm ++ [{| slot := sl; picked := f |}] |}
      else None
  | ReadSettles i ev =>
      rd ← reads fm !! i;
      Some {| state := handleFileChange_resume (slot rd) (fileToBase64 (picked rd) ev) s;
              reads := delete i (reads fm) |}
  | RemoveStartFrame =>
      if isAnimateMode s && bool_decide (is_Some (startFrame p))
      then Some (onState (λ s, onFields (setIsLooping false)
                                 (onFields (setStartFrame None) s)) fm)
      else None
  | RemoveEndFrame =>
      if isAnimateMode s && negb (isLooping p) && bool_decide (is_Some (endFrame p))
      then Some (onState (onFields (setEndFrame None)) fm) else None
  | RemoveReference index =>
      if isRefMode s && bool_decide (index < length (referenceImages p))%nat
      then Some (onState (onFields (setReferenceImages (removeAt index))) fm)
      else None
  | RemoveBaseVideo =>
      if isExtendMode s && bool_decide (is_Some (inputVideo p))
      then Some (onState (λ s, onFields (setInputVideoObject None)
                                 (onFields (setInputVideo None) s)) fm)
      else None
  | ChangeLoop checked =>
      if isAnimateMode s && bool_decide (is_Some (startFrame p))
      then Some (onState (onLoopChange checked) fm) else None
  | ClickPreset i =>
      if isAnimateMode s && bool_decide (is_Some (startFrame p))
      then preset ← ANIMATION_PRESETS !! i; Some (onState (applyPreset preset) fm)
      else None
  end.

(** ** [App] *)

Inductive Tab := studio | dialog.

(** Modelled from the spec: the enum [AppState] is declared in
    [types.ts], which is not among the sources; its members are the four
    the code names, the spec's Idle, Pending, Ready and Failed. *)
Inductive AppState := IDLE | LOADING | SUCCESS | ERROR.

Inductive Role := user | bot.
Record ChatMessage := { role : Role; text : jsstring }.

#[global] Instance Tab_eq_dec : EqDecision Tab.
Proof. solve_decision. Defined.
#[global] Instance AppState_eq_dec : EqDecision AppState.
Proof. solve_decision. Defined.

(** A blob held in memory and a [blob:] URL that dereferences one. *)
Definition Blob := nat.
Definition ObjectUrl := nat.

Record AppModel := {
  activeTab : Tab;
  appState : AppState;
  videoUrl : option ObjectUrl;
  errorMessage : option jsstring;
  lastConfig : option GenerateVideoParams;
  lastVideoObject : option Video;
  lastVideoBlob : option Blob;
  initialFormValues : option GenerateVideoParams;
  chatMessages : list ChatMessage;
  chatInput : jsstring;
  isTyping : bool;
}.

Definition setActiveTab v (a : AppModel) :=
  {| activeTab := v; appState := appState a; videoUrl := videoUrl a;
     errorMessage := errorMessage a; lastConfig := lastConfig a;
     lastVideoObject := lastVideoObject a; lastVideoBlob := lastVideoBlob a;
     initialFormValues := initialFormValues a; chatMessages := chatMessages a;
     chatInput := chatInput a; isTyping := isTyping a |}.
Definition setAppState v (a : AppModel) :=
  {| activeTab := activeTab a; appState := v; videoUrl := videoUrl a;
     errorMessage := errorMessage a; lastConfig := lastConfig a;
     lastVideoObject := lastVideoObject a; lastVideoBlob := lastVideoBlob a;
     initialFormValues := initialFormValues a; chatMessages := chatMessages a;
     chatInput := chatInput a; isTyping := isTyping a |}.
Definition setVideoUrl v (a : AppModel) :=
  {| activeTab := activeTab a; appState := appState a; videoUrl := v;
     errorMessage := errorMessage a; lastConfig := lastConfig a;
     lastVideoObject := lastVideoObject a; lastVideoBlob := lastVideoBlob a;
     initialFormValues := initialFormValues a; chatMessages := chatMessages a;
     chatInput := chatInput a; isTyping := isTyping a |}.
Definition setErrorMessage v (a : AppModel) :=
  {| activeTab := activeTab a; appState := appState a; videoUrl := videoUrl a;
     errorMessage := v; lastConfig := lastConfig a;
     lastVideoObject := lastVideoObject a; lastVideoBlob := lastVideoBlob a;
     initialFormValues := initialFormValues a; chatMessages := chatMessages a;
     chatInput := chatInput a; isTyping := isTyping a |}.
Definition setLastConfig v (a : AppModel) :=
  {| activeTab := activeTab a; appState := appState a; videoUrl := videoUrl a;
     errorMessage := errorMessage a; lastConfig := v;
     lastVideoObject := lastVideoObject a; lastVideoBlob := lastVideoBlob a;
     initialFormValues := initialFormValues a; chatMessages := chatMessages a;
     chatInput := chatInput a; isTyping := isTyping a |}.
Definition setLastVideoObject v (a : AppModel) :=
  {| activeTab := activeTab a; appState := appState a; videoUrl := videoUrl a;
     errorMessage := errorMessage a; lastConfig := lastConfig a;
     lastVideoObject := v; lastVideoBlob := lastVideoBlob a;
     initialFormValues := initialFormValues a; chatMessages := chatMessages a;
     chatInput := chatInput a; isTyping := isTyping a |}.
Definition setLastVideoBlob v (a : AppModel) :=
  {| activeTab := activeTab a; appState := appState a; videoUrl := videoUrl a;
     errorMessage := errorMessage a; lastConfig := lastConfig a;
     lastVideoObject := lastVideoObject a; lastVideoBlob := v;
     initialFormValues := initialFormValues a; chatMessages := chatMessages a;
     chatInput := chatInput a; isTyping := isTyping a |}.
Definition setInitialFormValues v (a : AppModel) :=
  {| activeTab := activeTab a; appState := appState a; videoUrl := videoUrl a;
     errorMessage := errorMessage a; lastConfig := lastConfig a;
     lastVideoObject := lastVideoObject a; lastVideoBlob := lastVideoBlob a;
     initialFormValues := v; chatMessages := chatMessages a;
     chatInput := chatInput a; isTyping := isTyping a |}.
(** [setChatMessages] with an updater function. *)
Definition setChatMessages (f : list ChatMessage → list ChatMessage) (a : AppModel) :=
  {| activeTab := activeTab a; appState := appState a; videoUrl := videoUrl a;
     errorMessage := errorMessage a; lastConfig := lastConfig a;
     lastVideoObject := lastVideoObject a; lastVideoBlob := lastVideoBlob a;
     initialFormValues := initialFormValues a; chatMessages := f (chatMessages a);
     chatInput := chatInput a; isTyping := isTyping a |}.
Definition setChatInput v (a : AppModel) :=
  {| activeTab := activeTab a; appState := appState a; videoUrl := videoUrl a;
     errorMessage := errorMessage a; lastConfig := lastConfig a;
     lastVideoObject := lastVideoObject a; lastVideoBlob := lastVideoBlob a;
     initialFormValues := initialFormValues a; chatMessages := chatMessages a;
     chatInput := v; isTyping := isTyping a |}.
Definition setIsTyping v (a : AppModel) :=
  {| activeTab := activeTab a; appState := appState a; videoUrl := videoUrl a;
     errorMessage := errorMessage a; lastConfig := lastConfig a;
     lastVideoObject := lastVideoObject a; lastVideoBlob := lastVideoBlob a;
     initialFormValues := initialFormValues a; chatMessages := chatMessages a;
     chatInput := chatInput a; isTyping := v |}.

(** The scripted lines of the transcript ([0xE4] is a-umlaut, [0xFC]
    u-umlaut). *)
Definition greeting : jsstring :=
  js "Ich bin Kaspar. Welche ungeschriebene Geschichte tr" ++ [0xE4]
  ++ js "umst du heute?".
Definition emptyReplyLine : jsstring :=
  js "Der Nebel ist zu dicht, ich kann gerade nicht sehen...".
Definition failureLine : jsstring :=
  js "Etwas hat meine Sicht getr" ++ [0xFC] ++ js "bt...".
Definition genericError : jsstring := js "Fehler bei der Generierung.".

(** The state after the first render and its mount effect, which stores
    the seed greeting. *)
Definition initialApp : AppModel :=
  {| activeTab := studio; appState := IDLE; videoUrl := None;
     errorMessage := None; lastConfig := None; lastVideoObject := None;
     lastVideoBlob := None; initialFormValues := None;
     chatMessages := [{| role := bot; text := greeting |}];
     chatInput := []; isTyping := false |}.

(** *** [handleSendMessage] *)

(** How [ai.models.generateContent] ends: a response whose [text] may be
    undefined, or an exception. *)
Inductive ChatOutcome :=
  | Responded (responseText : option jsstring)
  | ChatThrew (e : Thrown).

(** Up to the [await]; [None] is the early [return] on a blank input. *)
Definition handleSendMessage_call (a : AppModel) : option AppModel :=
  if negb (truthy (trim (chatInput a))) then None
  else
    let userText := chatInput a in
    Some (setIsTyping true
           (setChatMessages (λ prev, prev ++ [{| role := user; text := userText |}])
             (setChatInput [] a))).

(** From the [await] on: the [try] continuation, [catch] and [finally]. *)
Definition handleSendMessage_resume (o : ChatOutcome) (a : AppModel) : AppModel :=
  let a' :=
    match o with
    | Responded responseText =>
        let botText :=
          match responseText with
          | Some t => if truthy t then t else emptyReplyLine
          | None => emptyReplyLine
          end in
        setChatMessages (λ prev, prev ++ [{| role := bot; text := botText |}]) a
    | ChatThrew _ =>
        setChatMessages (λ prev, prev ++ [{| role := bot; text := failureLine |}]) a
    end in
  setIsTyping false a'.

(** *** Object URLs of generated media and [generateVideo] *)

(** The object URLs of generated media: the ones created for result
    blobs and not revoked, the next one to be created, and the one the
    generation service handed out last.  The preview URLs that
    [ImageUpload] and [VideoUpload] create for the uploaded files each
    time they render are no identifiers of generated media and are not
    recorded here. *)
Record UrlStore := {
  liveUrls : gset ObjectUrl;
  nextUrl : ObjectUrl;
  handedOut : option ObjectUrl;
}.

Definition createObjectURL (b : Blob) (u : UrlStore) : ObjectUrl * UrlStore :=
  (nextUrl u,
   {| liveUrls := {[ nextUrl u ]} ∪ liveUrls u; nextUrl := S (nextUrl u);
      handedOut := handedOut u |}).

Definition revokeObjectURL (url : ObjectUrl) (u : UrlStore) : UrlStore :=
  {| liveUrls := liveUrls u ∖ {[ url ]}; nextUrl := nextUrl u;
     handedOut := handedOut u |}.

Record GenerateVideoResult := {
  objectUrl : ObjectUrl;
  blob : Blob;
  video : Video;
}.

(** How the remote job ends: the media bytes and the remote video
    object, or an exception at submission, polling or download. *)
Inductive RemoteOutcome :=
  | Completed (b : Blob) (v : Video)
  | Failed (e : Thrown).

(** Modelled from the spec: the revocation of §4.3 step 4, "revoke any
    prior identifier held by the previous outcome"; the prior identifier
    is the one the service handed out last. *)
Definition revokePrior (u : UrlStore) : UrlStore :=
  match handedOut u with
  | Some prior => revokeObjectURL prior u
  | None => u
  end.

(** Modelled from the spec: [generateVideo] of [services/geminiService]
    is not among the sources.  §4.3 step 4: on terminal success the
    service fetches the media, wraps it in a local handle (deriving the
    dereferencing identifier, the [objectUrl] that [handleGenerate]
    destructures from its result), revokes any prior identifier held by
    the previous outcome, and then lets the outcome become Ready; step 5:
    any failure is thrown to the caller and the store is left alone. *)
Definition generateVideo (params : GenerateVideoParams) (o : RemoteOutcome)
    (u : UrlStore) : Settled GenerateVideoResult * UrlStore :=
  match o with
  | Completed b v =>
      let '(url, u') := createObjectURL b u in
      (Resolved {| objectUrl := url; blob := b; video := v |},
       {| liveUrls := liveUrls (revokePrior u'); nextUrl := nextUrl u';
          handedOut := Some url |})
  | Failed e => (Rejected e, u)
  end.

(** *** The running page *)

Record World := {
  app : AppModel;
  form : option Form;                      (* the mounted [PromptForm], if any *)
  generating : list GenerateVideoParams;   (* [generateVideo] calls not yet settled *)
  chatting : nat;                          (* [generateContent] calls not yet settled *)
  urls : UrlStore;
}.

Definition onApp (f : AppModel → AppModel) (w : World) : World :=
  {| app := f (app w); form := form w; generating := generating w;
     chatting := chatting w; urls := urls w |}.
Definition setForm (v : option Form) (w : World) : World :=
  {| app := app w; form := v; generating := generating w;
     chatting := chatting w; urls := urls w |}.
Definition setGenerating (v : list GenerateVideoParams) (w : World) : World :=
  {| app := app w; form := form w; generating := v;
     chatting := chatting w; urls := urls w |}.
Definition setChatting (v : nat) (w : World) : World :=
  {| app := app w; form := form w; generating := generating w;
     chatting := v; urls := urls w |}.
Definition setUrls (v : UrlStore) (w : World) : World :=
  {| app := app w; form := form w; generating := generating w;
     chatting := chatting w; urls := v |}.

(** The statements of [handleGenerate]: state setter calls and the call
    of the service. *)
Inductive Action :=
  | SetAppState (v : AppState)
  | SetErrorMessage (v : option jsstring)
  | SetLastConfig (v : option GenerateVideoParams)
  | SetInitialFormValues (v : option GenerateVideoParams)
  | SetVideoUrl (v : option ObjectUrl)
  | SetLastVideoBlob (v : option Blob)
  | SetLastVideoObject (v : option Video)
  | CallGenerateVideo (params : GenerateVideoParams).

Definition perform (w : World) (act : Action) : World :=
  match act with
  | SetAppState v => onApp (setAppState v) w
  | SetErrorMessage v => onApp (setErrorMessage v) w
  | SetLastConfig v => onApp (setLastConfig v) w
  | SetInitialFormValues v => onApp (setInitialFormValues v) w
  | SetVideoUrl v => onApp (setVideoUrl v) w
  | SetLastVideoBlob v => onApp (setLastVideoBlob v) w
  | SetLastVideoObject v => onApp (setLastVideoObject v) w
  | CallGenerateVideo params => setGenerating (generating w ++ [params]) w
  end.

Definition performAll (acts : list Action) (w : World) : World :=
  foldl perform w acts.

(** [handleGenerate] up to the [await]. *)
Definition handleGenerate_call (params : GenerateVideoParams) : list Action :=
  [ SetAppState LOADING;
    SetErrorMessage None;
    SetLastConfig (Some params);
    SetInitialFormValues None;
    CallGenerateVideo params ].

(** [error instanceof Error ? error.message : 'Fehler bei der Generierung.'] *)
Definition failureMessage (error : Thrown) : jsstring :=
  match error with
  | ErrorObj message => message
  | OtherValue _ => genericError
  end.

(** [handleGenerate] from the [await] on: the rest of the [try] block, or
    the [catch] block. *)
Definition handleGenerate_resume (r : Settled GenerateVideoResult) : list Action :=
  match r with
  | Resolved res =>
      [ SetVideoUrl (Some (objectUrl res));
        SetLastVideoBlob (Some (blob res));
        SetLastVideoObject (Some (video res));
        SetAppState SUCCESS ]
  | Rejected error =>
      [ SetErrorMessage (Some (failureMessage error));
        SetAppState ERROR ]
  end.

(** What the studio tab shows. *)
Definition formVisible (a : AppModel) : bool :=
  bool_decide (activeTab a = studio) && bool_decide (appState a = IDLE).
Definition resultVisible (a : AppModel) : bool :=
  bool_decide (activeTab a = studio) && bool_decide (appState a = SUCCESS)
  && bool_decide (is_Some (videoUrl a)).

(** Rendering mounts [PromptForm] with [initialFormValues] when it comes
    into view and unmounts it when it leaves; an unmounted form loses its
    state, and a read that settles afterwards updates nothing. *)
Definition render (w : World) : World :=
  if formVisible (app w) then
    match form w with
    | Some _ => w
    | None =>
        setForm (Some {| state := mountForm (initialFormValues (app w));
                         reads := [] |}) w
    end
  else setForm None w.

Inductive Event :=
  | SetActiveTab (t : Tab)
  | OnForm (e : FormEvent)
  | SubmitForm
  | GenerateVideoSettles (i : nat) (o : RemoteOutcome)
  | Retry
  | NewVideo
  | Extend
  | ChangeChatInput (value : jsstring)
  | SendMessage
  | GenerateContentSettles (o : ChatOutcome).

(** One event of the page, before re-rendering; [None] when the control
    is not on the page or disabled, or nothing is there to settle. *)
Definition handle (e : Event) (w : World) : option World :=
  match e with
  | SetActiveTab t => Some (onApp (setActiveTab t) w)
  | OnForm fe =>
      fm ← form w; fm' ← formStep fe fm; Some (setForm (Some fm') w)
  | SubmitForm =>
      fm ← form w;
      if isSubmitDisabled (state fm) then None
      else Some (performAll (handleGenerate_call (handleSubmit (state fm))) w)
  | GenerateVideoSettles i o =>
      params ← generating w !! i;
      let '(r, u) := generateVideo params o (urls w) in
      Some (performAll (handleGenerate_resume r)
              (setUrls u (setGenerating (delete i (generating w)) w)))
  | Retry =>
      if resultVisible (app w)
      then params ← lastConfig (app w); Some (performAll (handleGenerate_call params) w)
      else None
  | NewVideo =>
      if resultVisible (app w) then Some (onApp (setAppState IDLE) w) else None
  | Extend =>
      if resultVisible (app w) then Some w else None
  | ChangeChatInput value =>
      if bool_decide (activeTab (app w) = dialog)
      then Some (onApp (setChatInput value) w) else None
  | SendMessage =>
      if bool_decide (activeTab (app w) = dialog)
      then match handleSendMessage_call (app w) with
           | Some a => Some (setChatting (S (chatting w)) (onApp (λ _, a) w))
           | None => Some w
           end
      else None
  | GenerateContentSettles o =>
      match chatting w with
      | S n => Some (setChatting n (onApp (handleSendMessage_resume o) w))
      | O => None
      end
  end.

Definition step (e : Event) (w : World) : option World :=
  render <$> handle e w.

Fixpoint run (es : list Event) (w : World) : option World :=
  match es with
  | [] => Some w
  | e :: es' => w' ← step e w; run es' w'
  end.

(** The page once loaded: the studio tab with an empty form, no object
    URL of generated media yet. *)
Definition boot : World :=
  render {| app := initialApp; form := None; generating := []; chatting := 0%nat;
            urls := {| liveUrls := ∅; nextUrl := 0%nat; handedOut := None |} |}.

Definition reachable (w : World) : Prop := ∃ es, run es boot = Some w.

(** A run in which every file read settles before the next event: each
    [PickFile] is directly followed by the [ReadSettles] of that read. *)
Fixpoint readsSettleFirst (es : list Event) : bool :=
  match es with
  | [] => true
  | OnForm (PickFile _ _) :: es' =>
      match es' with
      | OnForm (ReadSettles 0%nat _) :: es'' => readsSettleFirst es''
      | _ => false
      end
  | OnForm (ReadSettles _ _) :: _ => false
  | _ :: es' => readsSettleFirst es'
  end.

(** The readiness table of the specification, §4.2: what each mode needs
    before a request may be submitted. *)
Definition readiness (p : GenerateVideoParams) : Prop :=
  match mode p with
  | TEXT_TO_VIDEO => trim (prompt p) ≠ []
  | ANIMATE_IMAGE => is_Some (startFrame p)
  | REFERENCES_TO_VIDEO => referenceImages p ≠ [] ∧ trim (prompt p) ≠ []
  | EXTEND_VIDEO => is_Some (inputVideoObject p)
  end.

(** ** Runs and counts used in the statements *)

(** What a successful read of a small PNG delivers. *)
Definition pngRead : ReaderEvent := onload (dataURL (js "image/png") (js "aGk=")).

(** The user opens the dialog tab, types Hallo and sends it. *)
Definition sendHallo : list Event :=
  [SetActiveTab dialog; ChangeChatInput (js "Hallo"); SendMessage].

(** A prompt is typed and submitted. *)
Definition submitPrompt : list Event :=
  [OnForm (ChangePrompt (js "a paper crane")); SubmitForm].

(** A generation succeeds, the user retries, the retry succeeds. *)
Definition twoGenerations : list Event :=
  submitPrompt
  ++ [GenerateVideoSettles 0%nat (Completed 10%nat 20%nat);
      Retry;
      GenerateVideoSettles 0%nat (Completed 11%nat 21%nat)].

(** A generation fails with [new Error('')]. *)
Definition failsWithEmptyError : list Event :=
  submitPrompt ++ [GenerateVideoSettles 0%nat (Failed (ErrorObj []))].

(** In references mode four files are picked while the add upload is
    still shown, and their reads settle afterwards. *)
Definition fourReferences : list Event :=
  [OnForm ToggleModeSelector; OnForm (SelectMode REFERENCES_TO_VIDEO);
   OnForm (PickFile ReferenceSlot 1%nat); OnForm (PickFile ReferenceSlot 2%nat);
   OnForm (PickFile ReferenceSlot 3%nat); OnForm (PickFile ReferenceSlot 4%nat);
   OnForm (ReadSettles 0%nat pngRead); OnForm (ReadSettles 0%nat pngRead);
   OnForm (ReadSettles 0%nat pngRead); OnForm (ReadSettles 0%nat pngRead)].

(** In animate mode a start frame is loaded, an end-frame file is picked,
    the loop box is ticked while that file is being read, and the read
    then settles. *)
Definition loopRace : list Event :=
  [OnForm ToggleModeSelector; OnForm (SelectMode ANIMATE_IMAGE);
   OnForm (PickFile StartFrameSlot 1%nat); OnForm (ReadSettles 0%nat pngRead);
   OnForm (PickFile EndFrameSlot 2%nat);
   OnForm (ChangeLoop true);
   OnForm (ReadSettles 0%nat pngRead)].

(** The same interactions with the loop box ticked after the read. *)
Definition loopAfterRead : list Event :=
  [OnForm ToggleModeSelector; OnForm (SelectMode ANIMATE_IMAGE);
   OnForm (PickFile StartFrameSlot 1%nat); OnForm (ReadSettles 0%nat pngRead);
   OnForm (PickFile EndFrameSlot 2%nat); OnForm (ReadSettles 0%nat pngRead);
   OnForm (ChangeLoop true)].

(** Three references added one after the other. *)
Definition threeReferences : list Event :=
  [OnForm ToggleModeSelector; OnForm (SelectMode REFERENCES_TO_VIDEO);
   OnForm (PickFile ReferenceSlot 1%nat); OnForm (ReadSettles 0%nat pngRead);
   OnForm (PickFile ReferenceSlot 2%nat); OnForm (ReadSettles 0%nat pngRead);
   OnForm (PickFile ReferenceSlot 3%nat); OnForm (ReadSettles 0%nat pngRead)].

Definition isSuccess (e : Event) : bool :=
  match e with
  | GenerateVideoSettles _ (Completed _ _) => true
  | _ => false
  end.

(** The number of generations that succeeded in a run. *)
Fixpoint successes (es : list Event) : nat :=
  match es with
  | [] => 0%nat
  | e :: es' => ((if isSuccess e then 1 else 0) + successes es')%nat
  end.

Definition isPickOrRead (e : FormEvent) : bool :=
  match e with
  | PickFile _ _ | ReadSettles _ _ => true
  | _ => false
  end.

(** ** Invariants of the running page *)

(** No form, pending call or remembered request is in extend mode, and
    no initial values are ever handed to the form. *)
Definition noExtend (w : World) : Prop :=
  initialFormValues (app w) = None
  ∧ (∀ fm, form w = Some fm → mode (fields (state fm)) ≠ EXTEND_VIDEO)
  ∧ Forall (λ p, mode p ≠ EXTEND_VIDEO) (generating w)
  ∧ (∀ p, lastConfig (app w) = Some p → mode p ≠ EXTEND_VIDEO).

(** The URLs of generated media after [n] successful generations: [n]
    were created, only the last is live, and it is the one [videoUrl]
    holds and the service remembers. *)
Definition storeAfter (n : nat) (w : World) : Prop :=
  nextUrl (urls w) = n
  ∧ handedOut (urls w) = videoUrl (app w)
  ∧ videoUrl (app w) = match n with O => None | S k => Some k end
  ∧ liveUrls (urls w) = match n with O => ∅ | S k => {[ k ]} end.

(** What the form's own handlers keep: at most three reference images,
    and no end frame while looping. *)
Definition formOk (s : FormState) : Prop :=
  (length (referenceImages (fields s)) ≤ 3)%nat
  ∧ (isLooping (fields s) = true → endFrame (fields s) = None).

(** The page between two events when no read is in flight. *)
Definition settled (w : World) : Prop :=
  noExtend w
  ∧ ∀ fm, form w = Some fm → reads fm = [] ∧ formOk (state fm).

(** ** [LoadingIndicator] *)

Definition loadingMessages : list jsstring := [
  js "Analyzing visual composition...";
  js "Simulating depth and motion...";
  js "Rendering cinematic lighting...";
  js "Tracing light through the scene...";
  js "Applying temporal coherence...";
  js "Generating fluid frame transitions...";
  js "Processing high-fidelity textures...";
  js "Calibrating motion vectors...";
  js "Painting with light and pixels...";
  js "Orchestrating the visual flow...";
  js "Polishing final cut details...";
  js "Wait while we weave the frames...";
  js "Breathing life into the static...";
  js "Animating the dream...";
  js "Synthesizing motion layers...";
  js "Capturing the digital moment..."
].

(** The updater the interval passes to [setMessageIndex]. *)
Definition nextMessageIndex (prevIndex : nat) : nat :=
  (prevIndex + 1) `mod` length loadingMessages.

(** [messageIndex] after [n] ticks of the interval, from [useState(0)]. *)
Definition messageIndexAfter (n : nat) : nat := Nat.iter n nextMessageIndex 0%nat.

(** ** Further invariants of the running page *)

(** The generation flow: a call is pending exactly in the loading
    state, and each state holds the cells its view reads. *)
Definition flowOk (w : World) : Prop :=
  match appState (app w) with
  | IDLE => generating w = [] ∧ errorMessage (app w) = None
  | LOADING =>
      ∃ p, generating w = [p] ∧ lastConfig (app w) = Some p
           ∧ errorMessage (app w) = None
  | SUCCESS =>
      generating w = [] ∧ errorMessage (app w) = None
      ∧ is_Some (videoUrl (app w)) ∧ is_Some (lastConfig (app w))
      ∧ is_Some (lastVideoBlob (app w)) ∧ is_Some (lastVideoObject (app w))
  | ERROR =>
      generating w = [] ∧ is_Some (errorMessage (app w))
      ∧ is_Some (lastConfig (app w))
  end.

(** The flow is in order and the form is mounted exactly when the studio
    tab shows it. *)
Definition coherent (w : World) : Prop :=
  flowOk w ∧ (is_Some (form w) ↔ formVisible (app w) = true).

(** What every form state and every request built from one satisfies,
    however reads and events interleave. *)
Definition fieldsOk (p : GenerateVideoParams) : Prop :=
  styleImage p = None ∧ inputVideo p = None ∧ inputVideoObject p = None
  ∧ mode p ≠ EXTEND_VIDEO
  ∧ (mode p = REFERENCES_TO_VIDEO →
       model p = VEO ∧ aspectRatio p = LANDSCAPE ∧ resolution p = P720)
  ∧ (isLooping p = true → mode p = ANIMATE_IMAGE ∧ is_Some (startFrame p)).

Definition requestsOk (w : World) : Prop :=
  initialFormValues (app w) = None
  ∧ (∀ fm, form w = Some fm →
       fieldsOk (fields (state fm))
       ∧ Forall (λ rd, slot rd ≠ BaseVideoSlot) (reads fm))
  ∧ Forall (λ p, fieldsOk p ∧ readiness p) (generating w)
  ∧ (∀ p, lastConfig (app w) = Some p → fieldsOk p ∧ readiness p).

Definition isRole (r : Role) (m : ChatMessage) : bool :=
  match r, role m with
  | user, user | bot, bot => true
  | _, _ => false
  end.

(** The number of turns of one speaker in a transcript. *)
Fixpoint turnsOf (r : Role) (l : list ChatMessage) : nat :=
  match l with
  | [] => 0%nat
  | m :: l' => ((if isRole r m then 1 else 0) + turnsOf r l')%nat
  end.

(** A user turn is not blank and an assistant turn is not empty. *)
Definition turnOk (m : ChatMessage) : Prop :=
  match role m with
  | user => trim (text m) ≠ []
  | bot => text m ≠ []
  end.

Definition transcriptOk (w : World) : Prop :=
  (∃ rest, chatMessages (app w) = {| role := bot; text := greeting |} :: rest)
  ∧ Forall turnOk (chatMessages (app w))
  ∧ (turnsOf bot (chatMessages (app w)) + chatting w)%nat
    = S (turnsOf user (chatMessages (app w)))
  ∧ (isTyping (app w) = true → (0 < chatting w)%nat).

(** Media cells are filled only in the mode that uses them. *)
Definition mediaInMode (s : FormState) : Prop :=
  (is_Some (startFrame (fields s)) ∨ is_Some (endFrame (fields s)) →
     mode (fields s) = ANIMATE_IMAGE)
  ∧ (referenceImages (fields s) ≠ [] → mode (fields s) = REFERENCES_TO_VIDEO).

(** A property of the mounted form, if there is one. *)
Definition holdsOn (P : FormState → Prop) (w : World) : Prop :=
  ∀ fm, form w = Some fm → P (state fm).

(** * Properties *)

(** Closes a decidable goal about concrete data by evaluation. *)
Ltac by_eval := apply (bool_decide_unpack _); vm_compute; exact I.

(** Splits on the render guard of an accepted event. *)
Ltac by_guard H :=
  match type of H with
  | (if ?g then _ else _) = Some _ => destruct g eqn:?; [|discriminate H]
  end.

(** ** Strings *)

Lemma trimStart_nil_iff s : trimStart s = [] ↔ Forall (λ c, isWhiteSpace c = true) s.
Proof.
  induction s as [|c s IH]; simpl.
  - split; [constructor | done].
  - destruct (isWhiteSpace c) eqn:Hc.
    + rewrite IH. split; [by constructor | by inversion 1].
    + split; [done | inversion 1; congruence].
Qed.

Lemma trimStart_suffix s : ∃ ws, s = ws ++ trimStart s ∧ Forall (λ c, isWhiteSpace c = true) ws.
Proof.
  induction s as [|c s (ws & Hs & Hws)]; simpl.
  - by exists [].
  - destruct (isWhiteSpace c) eqn:Hc.
    + exists (c :: ws). split; [simpl; congruence | by constructor].
    + by exists [].
Qed.

(** [trim] yields the empty string exactly on strings of white space. *)
Lemma trim_nil_iff s : trim s = [] ↔ Forall (λ c, isWhiteSpace c = true) s.
Proof.
  unfold trim, trimEnd. split.
  - intros H. apply (f_equal reverse) in H. rewrite reverse_involutive in H.
    rewrite reverse_nil in H. apply trimStart_nil_iff in H.
    destruct (trimStart_suffix s) as (ws & Hs & Hws).
    rewrite Hs. apply Forall_app. split; [done|].
    apply Forall_forall. intros c Hc.
    rewrite Forall_forall in H. apply H. by apply elem_of_reverse.
  - intros H. apply trimStart_nil_iff in H. by rewrite H.
Qed.

Lemma truthy_false s : truthy s = false ↔ s = [].
Proof. by destruct s. Qed.

Lemma truthy_true s : truthy s = true ↔ s ≠ [].
Proof. by destruct s. Qed.

Lemma split_nonempty sep s : split sep s ≠ [].
Proof. destruct s as [|c s]; simpl; [done|]. by repeat case_match. Qed.

Lemma split_no_sep sep s : sep ∉ s → split sep s = [s].
Proof.
  induction s as [|c s IH]; intros Hs; simpl; [done|].
  apply not_elem_of_cons in Hs as [Hc Hs].
  destruct (N.eqb_spec c sep) as [->|_]; [done|].
  by rewrite IH.
Qed.

Lemma split_app_sep sep pre rest :
  sep ∉ pre → split sep (pre ++ sep :: rest) = pre :: split sep rest.
Proof.
  induction pre as [|c pre IH]; intros Hpre; simpl.
  - by rewrite N.eqb_refl.
  - apply not_elem_of_cons in Hpre as [Hc Hpre].
    destruct (N.eqb_spec c sep) as [->|_]; [done|].
    by rewrite IH.
Qed.

(** No segment of a split contains the separator. *)
Lemma split_segments sep s : Forall (λ seg, sep ∉ seg) (split sep s).
Proof.
  induction s as [|c s IH]; simpl.
  - repeat constructor. apply not_elem_of_nil.
  - destruct (N.eqb_spec c sep) as [->|Hc].
    + constructor; [apply not_elem_of_nil | done].
    + destruct (split sep s) as [|seg segs]; simpl.
      * repeat constructor. rewrite list_elem_of_singleton. congruence.
      * inversion IH; subst. constructor; [|done].
        rewrite elem_of_cons. intros [?|?]; [congruence | done].
Qed.

Lemma base64_no_comma payload :
  Forall (λ c, isBase64Char c = true) payload → comma ∉ payload.
Proof.
  intros H Hin. rewrite Forall_forall in H. specialize (H _ Hin).
  vm_compute in H. discriminate.
Qed.

Lemma dataURL_split mime payload :
  comma ∉ mime → comma ∉ payload →
  split comma (dataURL mime payload) = [js "data:" ++ mime ++ js ";base64"; payload].
Proof.
  intros Hm Hp. unfold dataURL, dataURLPrefix.
  replace ((js "data:" ++ mime ++ js ";base64,") ++ payload)
    with ((js "data:" ++ mime ++ js ";base64") ++ comma :: payload).
  - rewrite split_app_sep, (split_no_sep _ payload); [done..|].
    assert (comma ∉ js "data:") by by_eval.
    assert (comma ∉ js ";base64") by by_eval.
    rewrite !elem_of_app. by intros [?|[?|?]].
  - rewrite <- !app_assoc. done.
Qed.

(** ** Media ingestion *)

Lemma fileToBase64_dataURL f mime payload :
  comma ∉ mime → comma ∉ payload →
  fileToBase64 f (onload (dataURL mime payload)) =
    if truthy payload then Resolved {| file := f; base64 := payload |}
    else Rejected (ErrorObj (js "Failed to read file as base64.")).
Proof.
  intros Hm Hp. unfold fileToBase64. by rewrite dataURL_split.
Qed.

Lemma fileToBase64_resolved f ev r :
  fileToBase64 f ev = Resolved r →
  file r = f ∧ base64 r ≠ [] ∧ comma ∉ base64 r.
Proof.
  destruct ev as [result|e]; simpl; [|done].
  destruct (split comma result !! 1%nat) as [b|] eqn:Hb; [|done].
  destruct (truthy b) eqn:Ht; [|done].
  intros [= <-]. simpl. split; [done|]. split; [by apply truthy_true|].
  pose proof (split_segments comma result) as Hall.
  rewrite Forall_lookup in Hall. by apply (Hall _ _ Hb).
Qed.

Lemma no_comma_no_prefix payload mime :
  comma ∉ payload → ¬ contains payload (dataURLPrefix mime).
Proof.
  intros Hp (before & after & Heq). apply Hp. rewrite Heq.
  assert (comma ∈ js ";base64,") by by_eval.
  unfold dataURLPrefix. rewrite !elem_of_app. tauto.
Qed.

(** X19.  For a file whose media type holds no comma and whose read yields
    the data URL [data:<mime>;base64,<payload>], [fileToBase64] resolves
    with exactly [payload], the text after the prefix, and that payload
    does not contain the prefix; it rejects exactly when the read fires
    [onerror] or the payload is empty, and never otherwise.  Whatever was
    read, a resolved payload is non-empty and free of the comma that ends
    the prefix. *)
Theorem fileToBase64_strips_prefix (f : File) (mime payload : jsstring)
    (Hmime : comma ∉ mime)
    (Hpayload : Forall (λ c, isBase64Char c = true) payload) :
  (payload ≠ [] →
     fileToBase64 f (onload (dataURL mime payload))
     = Resolved {| file := f; base64 := payload |})
  ∧ ¬ contains payload (dataURLPrefix mime)
  ∧ (isRejected (fileToBase64 f (onload (dataURL mime payload))) = true
     ↔ payload = [])
  ∧ (∀ e, isRejected (fileToBase64 f (onerror e)) = true)
  ∧ (∀ ev r, fileToBase64 f ev = Resolved r →
       file r = f ∧ base64 r ≠ [] ∧ comma ∉ base64 r).
Proof.
  pose proof (base64_no_comma _ Hpayload) as Hp.
  rewrite fileToBase64_dataURL by done.
  split; [|split; [|split; [|split]]].
  - intros Hne. by destruct payload.
  - by apply no_comma_no_prefix.
  - by destruct payload.
  - done.
  - intros ev r. apply fileToBase64_resolved.
Qed.

Lemma fileToBase64_strips_prefix_witness :
  fileToBase64 7%nat (onload (dataURL (js "image/png") (js "aGk=")))
  = Resolved {| file := 7%nat; base64 := js "aGk=" |}.
Proof.
  refine (proj1 (fileToBase64_strips_prefix 7%nat (js "image/png") (js "aGk=") _ _) _).
  - by_eval.
  - by_eval.
  - discriminate.
Defined.

(** C8.  A media type that holds a comma defeats the stripping.  For a
    file of type [video/webm;codecs=vp8,opus] whose bytes encode to
    [aGk=], [fileToBase64] resolves with [opus;base64], a piece of the
    prefix, instead of the payload, and it resolves the same way when the
    payload is empty; for a type with two commas in a row it rejects a
    file whose payload is not empty. *)
Theorem fileToBase64_comma_in_media_type (f : File) :
  fileToBase64 f (onload (dataURL (js "video/webm;codecs=vp8,opus") (js "aGk=")))
  = Resolved {| file := f; base64 := js "opus;base64" |}
  ∧ fileToBase64 f (onload (dataURL (js "video/webm;codecs=vp8,opus") []))
    = Resolved {| file := f; base64 := js "opus;base64" |}
  ∧ contains (dataURLPrefix (js "video/webm;codecs=vp8,opus")) (js "opus;base64")
  ∧ fileToBase64 f (onload (dataURL (js "a/b,,c") (js "aGk=")))
    = Rejected (ErrorObj (js "Failed to read file as base64.")).
Proof.
  split_and!; try (vm_compute; reflexivity).
  exists (js "data:video/webm;codecs=vp8,"), (js ","). vm_compute. reflexivity.
Qed.

(** ** Submission readiness *)

Lemma isSubmitDisabled_spec s :
  isSubmitDisabled s = false ↔ readiness (fields s).
Proof.
  unfold isSubmitDisabled, readiness.
  destruct (mode (fields s)).
  - rewrite negb_false_iff. apply truthy_true.
  - rewrite negb_false_iff, bool_decide_eq_true. done.
  - rewrite orb_false_iff, negb_false_iff, bool_decide_eq_false, truthy_true.
    destruct (referenceImages (fields s)); simpl; [tauto|].
    split; [intros [_ ?]; by split | intros [_ ?]; split; [lia | done]].
  - rewrite negb_false_iff, bool_decide_eq_true. done.
Qed.

(** C1.  The submit button is enabled exactly when the readiness row of
    the form's mode holds: a prompt that is not blank for text-to-video,
    a start frame for animate-image, at least one reference image and a
    non-blank prompt for references-to-video, the remote video object for
    extend-video.  A local base video file does not enable it, and the
    submit event is accepted by the page exactly when the button is
    enabled. *)
Theorem submit_iff_ready (s : FormState) :
  (isSubmitDisabled s = false ↔ readiness (fields s))
  ∧ (isSubmitDisabled s = false ↔
       match mode (fields s) with
       | TEXT_TO_VIDEO => ¬ Forall (λ c, isWhiteSpace c = true) (prompt (fields s))
       | ANIMATE_IMAGE => startFrame (fields s) ≠ None
       | REFERENCES_TO_VIDEO =>
           (0 < length (referenceImages (fields s)))%nat
           ∧ ¬ Forall (λ c, isWhiteSpace c = true) (prompt (fields s))
       | EXTEND_VIDEO => inputVideoObject (fields s) ≠ None
       end)
  ∧ (∀ v, isSubmitDisabled
            (onFields (λ p, setInputVideo (Some v)
                              (setInputVideoObject None
                                 (setGenerationMode EXTEND_VIDEO p))) s) = true)
  ∧ (∀ w rds, is_Some (handle SubmitForm (setForm (Some {| state := s; reads := rds |}) w))
              ↔ isSubmitDisabled s = false).
Proof.
  split; [apply isSubmitDisabled_spec|]. split; [|split].
  - rewrite isSubmitDisabled_spec. unfold readiness.
    destruct (mode (fields s)).
    + by rewrite trim_nil_iff.
    + by rewrite not_eq_None_Some.
    + rewrite trim_nil_iff. destruct (referenceImages (fields s)); simpl.
      * split; [by intros [? _] | intros [? _]; lia].
      * split; (intros [_ ?]; split; [done || lia | done]).
    + by rewrite not_eq_None_Some.
  - done.
  - intros w rds. simpl. destruct (isSubmitDisabled s).
    + split; [by intros [? ?] | done].
    + split; [done | by eexists].
Qed.

(** ** Mode switches *)

(** C4.  [handleSelectMode] stores the chosen mode, empties
    [startFrame], [endFrame], [referenceImages], [styleImage],
    [inputVideo], [inputVideoObject] and [isLooping], and leaves
    [prompt], [model], [aspectRatio] and [resolution] as they were; once
    the mode effect has run, [prompt] is still untouched and each of the
    other three either keeps its value or holds the default its new mode
    forces. *)
Theorem handleSelectMode_frame (m : GenerationMode) (s : FormState) :
  fields (handleSelectMode m s)
  = {| prompt := prompt (fields s); model := model (fields s);
       aspectRatio := aspectRatio (fields s); resolution := resolution (fields s);
       mode := m;
       startFrame := None; endFrame := None; referenceImages := [];
       styleImage := None; inputVideo := None; inputVideoObject := None;
       isLooping := false |}
  ∧ (let p' := fields (selectMode m s) in
     mode p' = m
     ∧ startFrame p' = None ∧ endFrame p' = None ∧ referenceImages p' = []
     ∧ styleImage p' = None ∧ inputVideo p' = None ∧ inputVideoObject p' = None
     ∧ isLooping p' = false
     ∧ prompt p' = prompt (fields s)
     ∧ (model p' = model (fields s)
        ∨ m = REFERENCES_TO_VIDEO ∧ model p' = VEO)
     ∧ (aspectRatio p' = aspectRatio (fields s)
        ∨ m = REFERENCES_TO_VIDEO ∧ aspectRatio p' = LANDSCAPE)
     ∧ (resolution p' = resolution (fields s)
        ∨ (m = REFERENCES_TO_VIDEO ∨ m = EXTEND_VIDEO) ∧ resolution p' = P720)).
Proof.
  split; [done|].
  unfold selectMode. destruct (decide (mode (fields s) = m)) as [Hm|Hm].
  - simpl. tauto.
  - destruct m; simpl; tauto.
Qed.

(** ** Mode-entry defaults *)

(** C6.  Entering references-to-video, by the mode selector or by
    mounting with initial values, leaves the form with the standard
    engine, landscape format and 720p; entering extend-video leaves it
    with 720p.  While the form is in references-to-video the engine,
    format and quality selects are disabled and their change events are
    not accepted; in extend-video the same holds for format and
    quality. *)
Theorem mode_entry_defaults
    (sRef sExt sInRef sInExt : FormState) (ivRef ivExt : GenerateVideoParams)
    (HenterRef : mode (fields sRef) ≠ REFERENCES_TO_VIDEO)
    (HenterExt : mode (fields sExt) ≠ EXTEND_VIDEO)
    (HmountRef : mode ivRef = REFERENCES_TO_VIDEO)
    (HmountExt : mode ivExt = EXTEND_VIDEO)
    (HinRef : mode (fields sInRef) = REFERENCES_TO_VIDEO)
    (HinExt : mode (fields sInExt) = EXTEND_VIDEO) :
  (let p := fields (selectMode REFERENCES_TO_VIDEO sRef) in
   mode p = REFERENCES_TO_VIDEO
   ∧ model p = VEO ∧ aspectRatio p = LANDSCAPE ∧ resolution p = P720)
  ∧ (let p := fields (mountForm (Some ivRef)) in
     mode p = REFERENCES_TO_VIDEO
     ∧ model p = VEO ∧ aspectRatio p = LANDSCAPE ∧ resolution p = P720)
  ∧ (let p := fields (selectMode EXTEND_VIDEO sExt) in
     mode p = EXTEND_VIDEO ∧ resolution p = P720)
  ∧ (let p := fields (mountForm (Some ivExt)) in
     mode p = EXTEND_VIDEO ∧ resolution p = P720)
  ∧ (engineDisabled sInRef = true ∧ formatDisabled sInRef = true
     ∧ qualityDisabled sInRef = true
     ∧ ∀ rds v a r,
         let fm := {| state := sInRef; reads := rds |} in
         formStep (ChangeEngine v) fm = None
         ∧ formStep (ChangeFormat a) fm = None
         ∧ formStep (ChangeQuality r) fm = None)
  ∧ (formatDisabled sInExt = true ∧ qualityDisabled sInExt = true
     ∧ ∀ rds a r,
         let fm := {| state := sInExt; reads := rds |} in
         formStep (ChangeFormat a) fm = None
         ∧ formStep (ChangeQuality r) fm = None).
Proof.
  repeat apply conj.
  1-4: unfold selectMode; rewrite decide_False by done; done.
  1-4: unfold mountForm, modeEffect; simpl; rewrite HmountRef; done.
  1-2: unfold selectMode; rewrite decide_False by done; done.
  1-2: unfold mountForm, modeEffect; simpl; rewrite HmountExt; done.
  1-3: unfold engineDisabled, formatDisabled, qualityDisabled, isRefMode;
       rewrite HinRef; done.
  - intros rds v a r. simpl.
    unfold engineDisabled, formatDisabled, qualityDisabled, isRefMode.
    rewrite HinRef. simpl. rewrite !andb_false_r. done.
  - unfold formatDisabled, isRefMode, isExtendMode. rewrite HinExt. done.
  - unfold qualityDisabled, isRefMode, isExtendMode. rewrite HinExt. done.
  - intros rds a r. simpl.
    unfold formatDisabled, qualityDisabled, isRefMode, isExtendMode.
    rewrite HinExt. simpl. rewrite !andb_false_r. done.
Qed.

Lemma mode_entry_defaults_witness :
  let p := fields (selectMode REFERENCES_TO_VIDEO (mountForm None)) in
  mode p = REFERENCES_TO_VIDEO
  ∧ model p = VEO ∧ aspectRatio p = LANDSCAPE ∧ resolution p = P720.
Proof.
  refine (proj1 (mode_entry_defaults
    (mountForm None) (mountForm None)
    (selectMode REFERENCES_TO_VIDEO (mountForm None))
    (mountForm (Some (setGenerationMode EXTEND_VIDEO defaultFields)))
    (setGenerationMode REFERENCES_TO_VIDEO defaultFields)
    (setGenerationMode EXTEND_VIDEO defaultFields)
    _ _ _ _ _ _)); simpl; first [discriminate | reflexivity].
Defined.

(** ** Facts about single events *)

Lemma selectMode_mode m s : mode (fields (selectMode m s)) = m.
Proof.
  unfold selectMode. destruct (decide _); [done|]. by destruct m.
Qed.

Lemma handleFileChange_resume_mode sl r s :
  mode (fields (handleFileChange_resume sl r s)) = mode (fields s).
Proof. destruct r as [media|]; [|done]. by destruct sl. Qed.

(** An event on the form either keeps the mode or stores one of the
    modes the selector offers. *)
Lemma formStep_mode e fm fm' :
  formStep e fm = Some fm' →
  mode (fields (state fm')) = mode (fields (state fm))
  ∨ mode (fields (state fm')) ∈ selectableModes.
Proof.
  destruct e; simpl; intros H; try by_guard H; simplify_option_eq; simpl;
    rewrite ?selectMode_mode, ?handleFileChange_resume_mode; auto.
  - match goal with H : _ && false = true |- _ => by rewrite andb_false_r in H end.
  - left. unfold onLoopChange. by destruct checked.
Qed.

Lemma extend_not_selectable : EXTEND_VIDEO ∉ selectableModes.
Proof. by_eval. Qed.

(** ** The extend mode is out of reach *)

Lemma render_noExtend w : noExtend w → noExtend (render w).
Proof.
  intros Hw. pose proof Hw as (Hiv & Hform & Hgen & Hlast). unfold render.
  destruct (formVisible (app w)).
  - destruct (form w) eqn:Hf; [exact Hw|].
    split; [done|]. split; [|done].
    simpl. intros fm [= <-]. simpl. by rewrite Hiv.
  - split; [done|]. split; [|done]. simpl. done.
Qed.

Lemma handle_noExtend e w w' :
  noExtend w → handle e w = Some w' → noExtend w'.
Proof.
  intros Hw. pose proof Hw as (Hiv & Hform & Hgen & Hlast).
  destruct e; simpl; intros H.
  - simplify_eq. done.
  - destruct (form w) as [fm|] eqn:Hf; simpl in H; [|done].
    destruct (formStep e fm) as [fm'|] eqn:Hstep; simpl in H; [|done].
    simplify_eq. split; [done|]. split; [|done].
    simpl. intros ? [= <-].
    destruct (formStep_mode _ _ _ Hstep) as [->|Hin]; [by apply Hform|].
    intros Heq. rewrite Heq in Hin. by apply extend_not_selectable.
  - destruct (form w) as [fm|] eqn:Hf; simpl in H; [|done].
    destruct (isSubmitDisabled (state fm)); simplify_eq.
    pose proof (Hform _ eq_refl) as Hfm.
    split_and!; simpl; [done | by rewrite Hf | | by intros ? [= <-]].
    apply Forall_app. split; [done|]. by constructor.
  - destruct (generating w !! i) as [params|] eqn:Hi; simpl in H; [|done].
    assert (Forall (λ p, mode p ≠ EXTEND_VIDEO) (delete i (generating w))) as Hdel.
    { apply Forall_forall. intros p Hp. rewrite Forall_forall in Hgen.
      apply Hgen. by eapply list_elem_of_delete_inv. }
    destruct o as [b v|err]; simpl in H; simplify_eq; by split_and!.
  - destruct (resultVisible (app w)); [|done].
    destruct (lastConfig (app w)) as [params|] eqn:Hl; simpl in H; [|done].
    simplify_eq. pose proof (Hlast _ eq_refl) as Hp.
    split_and!; simpl; [done | done | | by intros ? [= <-]].
    apply Forall_app. split; [done|]. by constructor.
  - destruct (resultVisible (app w)); by simplify_eq.
  - destruct (resultVisible (app w)); by simplify_eq.
  - destruct (bool_decide _); by simplify_eq.
  - destruct (bool_decide _); [|done].
    unfold handleSendMessage_call in H.
    destruct (negb _); simplify_eq; [exact Hw | split_and!; simpl; done].
  - destruct (chatting w); simplify_eq.
    destruct o as [responseText|err]; split_and!; simpl; done.
Qed.

Lemma step_noExtend e w w' : noExtend w → step e w = Some w' → noExtend w'.
Proof.
  unfold step. intros Hw H.
  destruct (handle e w) as [w1|] eqn:Hh; simpl in H; [|done].
  simplify_eq. eauto using render_noExtend, handle_noExtend.
Qed.

Lemma run_noExtend es w w' : noExtend w → run es w = Some w' → noExtend w'.
Proof.
  revert w. induction es as [|e es IH]; simpl; intros w Hw H.
  - by simplify_eq.
  - destruct (step e w) as [w1|] eqn:Hs; simpl in H; [|done].
    eauto using step_noExtend.
Qed.

Lemma boot_noExtend : noExtend boot.
Proof.
  split; [done|]. split; [|split; [constructor | done]].
  simpl. by intros ? [= <-].
Qed.

(** C10.  In every state reached from the freshly loaded page, whatever
    the events and however they interleave, the form is not in extend
    mode; neither is any request handed to [generateVideo] nor the
    request kept for a retry, and the form is never given initial
    values.  The extend callback of the result view changes nothing. *)
Theorem extend_unreachable (es : list Event) (w : World)
    (Hrun : run es boot = Some w) :
  (∀ fm, form w = Some fm → mode (fields (state fm)) ≠ EXTEND_VIDEO)
  ∧ (∀ p, p ∈ generating w → mode p ≠ EXTEND_VIDEO)
  ∧ (∀ p, lastConfig (app w) = Some p → mode p ≠ EXTEND_VIDEO)
  ∧ initialFormValues (app w) = None
  ∧ (∀ w', handle Extend w = Some w' → w' = w).
Proof.
  destruct (run_noExtend _ _ _ boot_noExtend Hrun) as (Hiv & Hform & Hgen & Hlast).
  repeat apply conj; try done.
  - by apply Forall_forall.
  - intros w'. simpl. destruct (resultVisible (app w)); congruence.
Qed.

Lemma extend_unreachable_witness :
  ∃ w, run submitPrompt boot = Some w
       ∧ ∀ p, p ∈ generating w → mode p ≠ EXTEND_VIDEO.
Proof.
  destruct (run submitPrompt boot) as [w|] eqn:Hrun;
    [|vm_compute in Hrun; discriminate].
  exists w. split; [reflexivity|].
  exact (proj1 (proj2 (extend_unreachable submitPrompt w Hrun))).
Defined.

(** ** The transcript *)

(** C9.  The transcript starts as the scripted greeting alone, before
    any call of the text model.  After Hallo is sent as the first user
    turn it is the greeting and the user turn, and once the call settles,
    however it ends, it has exactly three entries: the greeting, the user
    turn Hallo, and one assistant turn. *)
Theorem hallo_transcript (o : ChatOutcome) :
  (chatMessages (app boot) = [{| role := bot; text := greeting |}]
   ∧ chatting boot = 0%nat)
  ∧ (∃ w, run sendHallo boot = Some w
          ∧ chatMessages (app w)
            = [{| role := bot; text := greeting |};
               {| role := user; text := js "Hallo" |}])
  ∧ (∃ w reply, run (sendHallo ++ [GenerateContentSettles o]) boot = Some w
          ∧ chatMessages (app w)
            = [{| role := bot; text := greeting |};
               {| role := user; text := js "Hallo" |};
               {| role := bot; text := reply |}]
          ∧ length (chatMessages (app w)) = 3%nat).
Proof.
  split; [done|]. split; [by eexists|].
  destruct o as [[t|]|e].
  - destruct t as [|c t]; by eexists _, _.
  - by eexists _, _.
  - by eexists _, _.
Qed.

(** ** The generation flow *)

(** C7.  With the message of an empty [Error] the claim fails:
    [generateVideo] throws [new Error('')], which carries no text, and
    the outcome is the error state with the empty message, not the
    generic one. *)
Lemma empty_error_keeps_empty_message :
  ∃ w, run failsWithEmptyError boot = Some w
       ∧ appState (app w) = ERROR
       ∧ errorMessage (app w) = Some []
       ∧ errorMessage (app w) ≠ Some genericError.
Proof. eexists. by split_and!. Qed.

(** C7, amended.  [handleGenerate] stores the loading state as its first
    statement and calls [generateVideo] as its last statement before the
    [await], with no call of the service in between.  When a pending
    call throws, the handler ends in the error state, whatever was
    thrown: the message is the thrown [Error]'s own message, empty or
    not, when the value is an [Error] instance, and the generic message
    when it is not; the video URL of the previous outcome is kept. *)
Theorem handleGenerate_failure (params pending : GenerateVideoParams)
    (w : World) (i : nat) (e : Thrown)
    (Hpending : generating w !! i = Some pending) :
  (∃ pre, handleGenerate_call params
          = SetAppState LOADING :: pre ++ [CallGenerateVideo params]
          ∧ ∀ p, CallGenerateVideo p ∉ pre)
  ∧ (let w1 := performAll (handleGenerate_call params) w in
     appState (app w1) = LOADING ∧ errorMessage (app w1) = None
     ∧ generating w1 = generating w ++ [params])
  ∧ (∃ w', handle (GenerateVideoSettles i (Failed e)) w = Some w'
           ∧ appState (app w') = ERROR
           ∧ errorMessage (app w')
             = Some (match e with
                     | ErrorObj message => message
                     | OtherValue _ => genericError
                     end)
           ∧ videoUrl (app w') = videoUrl (app w)
           ∧ generating w' = delete i (generating w)).
Proof.
  split; [|split].
  - eexists [_; _; _]. split; [done|].
    intros p Hp. repeat (apply elem_of_cons in Hp as [Hp|Hp]; [done|]).
    by apply elem_of_nil in Hp.
  - done.
  - simpl. rewrite Hpending. simpl. eexists. split; [done|].
    by destruct e.
Qed.

Lemma handleGenerate_failure_witness :
  ∃ w', handle (GenerateVideoSettles 0%nat (Failed (OtherValue 0%nat)))
          (performAll (handleGenerate_call defaultFields) boot) = Some w'
        ∧ appState (app w') = ERROR
        ∧ errorMessage (app w') = Some genericError.
Proof.
  destruct (handleGenerate_failure defaultFields defaultFields
              (performAll (handleGenerate_call defaultFields) boot)
              0%nat (OtherValue 0%nat) eq_refl)
    as (_ & _ & w' & Hw' & Hst & Hmsg & _).
  exists w'. by split_and!.
Defined.

(** ** Object URLs of generated media *)

Lemma render_storeAfter n w : storeAfter n w → storeAfter n (render w).
Proof.
  unfold render. intros Hw.
  destruct (formVisible (app w)); [destruct (form w)|]; exact Hw.
Qed.

Lemma handle_storeAfter n e w w' :
  storeAfter n w → handle e w = Some w' →
  storeAfter (if isSuccess e then S n else n) w'.
Proof.
  intros Hw.
  destruct e; simpl; intros H.
  - simplify_eq. exact Hw.
  - destruct (form w) as [fm|]; simpl in H; [|done].
    destruct (formStep e fm); simpl in H; simplify_eq. exact Hw.
  - destruct (form w) as [fm|]; simpl in H; [|done].
    destruct (isSubmitDisabled (state fm)); simplify_eq. exact Hw.
  - destruct (generating w !! i) as [params|]; [|done].
    destruct o as [b v|err]; cbn in H; simplify_eq; [|exact Hw].
    destruct Hw as (Hnext & Hout & Hurl & Hlive).
    unfold storeAfter, revokePrior. cbn.
    rewrite Hnext, Hout, Hurl, Hlive.
    split_and!; [done | done | done |].
    destruct n as [|k]; cbn; apply set_eq; intros x.
    + rewrite elem_of_union, !elem_of_singleton, elem_of_empty. tauto.
    + rewrite elem_of_difference, elem_of_union, !elem_of_singleton. lia.
  - destruct (resultVisible (app w)); [|done].
    destruct (lastConfig (app w)); simpl in H; simplify_eq. exact Hw.
  - destruct (resultVisible (app w)); simplify_eq. exact Hw.
  - destruct (resultVisible (app w)); simplify_eq. exact Hw.
  - destruct (bool_decide _); simplify_eq. exact Hw.
  - destruct (bool_decide _); [|done].
    unfold handleSendMessage_call in H.
    destruct (negb _); simplify_eq; exact Hw.
  - destruct (chatting w); simplify_eq.
    destruct o; exact Hw.
Qed.

Lemma step_storeAfter n e w w' :
  storeAfter n w → step e w = Some w' →
  storeAfter (if isSuccess e then S n else n) w'.
Proof.
  unfold step. intros Hw H. apply fmap_Some in H as (w1 & Hh & ->).
  eauto using render_storeAfter, handle_storeAfter.
Qed.

Lemma run_storeAfter es n w w' :
  storeAfter n w → run es w = Some w' → storeAfter (successes es + n) w'.
Proof.
  revert n w. induction es as [|e es IH]; simpl; intros n w Hw H.
  - by simplify_eq.
  - apply bind_Some in H as (w1 & H1 & H).
    apply (step_storeAfter n) in H1; [|done].
    apply IH with (n := if isSuccess e then S n else n) in H; [|done].
    destruct (isSuccess e); simpl.
    + by replace (S (successes es + n)) with (successes es + S n)%nat by lia.
    + done.
Qed.

Lemma boot_storeAfter : storeAfter 0 boot.
Proof. by split_and!. Qed.

(** C2.  With the generation service revoking, as the specification has
    it, the identifier it handed out last: in every state of the page at
    most one object URL of generated media is live, and it is the one
    [videoUrl] holds; as many identifiers were created as generations
    succeeded, so none of the earlier ones is left over.  A generation
    that succeeds publishes the fresh identifier in [videoUrl] with the
    identifier of the previous outcome already revoked. *)
Theorem one_live_url_at_a_time (es : list Event) (w : World)
    (Hrun : run es boot = Some w) :
  (size (liveUrls (urls w)) ≤ 1)%nat
  ∧ liveUrls (urls w)
    = match videoUrl (app w) with Some u => {[ u ]} | None => ∅ end
  ∧ nextUrl (urls w) = successes es
  ∧ (∀ i b v w', step (GenerateVideoSettles i (Completed b v)) w = Some w' →
       videoUrl (app w') = Some (nextUrl (urls w))
       ∧ liveUrls (urls w') = {[ nextUrl (urls w) ]}
       ∧ ∀ old, videoUrl (app w) = Some old → old ∉ liveUrls (urls w')).
Proof.
  pose proof (run_storeAfter _ _ _ _ boot_storeAfter Hrun) as Hw.
  rewrite Nat.add_0_r in Hw.
  pose proof Hw as (Hnext & Hout & Hurl & Hlive).
  split_and!.
  - rewrite Hlive. destruct (successes es).
    + rewrite size_empty. lia.
    + rewrite size_singleton. lia.
  - rewrite Hlive, Hurl. by destruct (successes es).
  - done.
  - intros i b v w' Hstep.
    apply (step_storeAfter (successes es)) in Hstep; [|done].
    destruct Hstep as (_ & _ & Hurl' & Hlive'). cbn in Hurl', Hlive'.
    rewrite Hnext. split_and!; [done | done |].
    intros old Hold. rewrite Hlive', elem_of_singleton.
    rewrite Hurl in Hold. destruct (successes es); simplify_eq. lia.
Qed.

Lemma one_live_url_at_a_time_witness :
  ∃ w, run twoGenerations boot = Some w
       ∧ (size (liveUrls (urls w)) ≤ 1)%nat
       ∧ nextUrl (urls w) = 2%nat.
Proof.
  destruct (run twoGenerations boot) as [w|] eqn:Hrun;
    [|vm_compute in Hrun; discriminate].
  exists w. split; [reflexivity|].
  destruct (one_live_url_at_a_time twoGenerations w Hrun) as (Hsize & _ & Hnext & _).
  by split.
Defined.

(** ** Reference images and the loop flag *)

Lemma filterIndex_length {A} keep i (l : list A) :
  (length (filterIndex keep i l) ≤ length l)%nat.
Proof.
  revert i. induction l as [|x l IH]; intros i; simpl; [done|].
  specialize (IH (S i)). destruct (keep i); simpl; lia.
Qed.

Lemma removeAt_length {A} index (imgs : list A) :
  (length (removeAt index imgs) ≤ length imgs)%nat.
Proof. apply filterIndex_length. Qed.

(** Every handler of the form other than a file read keeps [formOk] and
    leaves the reads in flight alone. *)
Lemma formStep_quiet e fm fm' :
  isPickOrRead e = false → formOk (state fm) → formStep e fm = Some fm' →
  formOk (state fm') ∧ reads fm' = reads fm.
Proof.
  intros He [Hlen Hloop].
  destruct e; try discriminate He; simpl; intros H; try by_guard H;
    simplify_option_eq;
    try match goal with H : _ && false = true |- _ => by rewrite andb_false_r in H end;
    (split; [|done]); split; simpl; try done.
  - unfold selectMode. destruct (decide _); [simpl; lia|].
    destruct m; simpl; lia.
  - unfold selectMode. destruct (decide _); [done|]. by destruct m.
  - etrans; [apply removeAt_length|done].
  - unfold onLoopChange. by destruct checked.
  - unfold onLoopChange. by destruct checked.
Qed.

(** A file picked while its upload is shown, whose read settles before
    anything else happens, keeps [formOk]. *)
Lemma formStep_pick_settle sl f ev fm fm1 fm2 :
  formOk (state fm) → reads fm = [] →
  formStep (PickFile sl f) fm = Some fm1 →
  formStep (ReadSettles 0 ev) fm1 = Some fm2 →
  formOk (state fm2) ∧ reads fm2 = [].
Proof.
  intros [Hlen Hloop] Hreads. simpl. intros H1. by_guard H1. simplify_eq.
  rewrite Hreads. simpl. intros [= <-]. simpl. split; [|done].
  destruct (fileToBase64 f ev) as [media|]; simpl; [|done].
  destruct sl; simpl in *; split; simpl; try done.
  - repeat match goal with H : _ && _ = true |- _ => apply andb_true_iff in H as [? ?] end.
    intros Hl. rewrite Hl in *. done.
  - repeat match goal with H : _ && _ = true |- _ => apply andb_true_iff in H as [? ?] end.
    match goal with H : bool_decide _ = true |- _ => apply bool_decide_eq_true in H end.
    rewrite length_app. simpl. lia.
Qed.

Lemma handle_form_frame e w w' :
  (∀ fe, e ≠ OnForm fe) → handle e w = Some w' → form w' = form w.
Proof.
  intros He. destruct e; simpl; intros H.
  - by simplify_eq.
  - by destruct (He e).
  - destruct (form w) as [fm|] eqn:Hf; simpl in H; [|done].
    destruct (isSubmitDisabled (state fm)); simplify_eq. simpl. done.
  - destruct (generating w !! i) as [params|]; simpl in H; [|done].
    destruct o as [b v|err]; simpl in H; by simplify_eq.
  - destruct (resultVisible (app w)); [|done].
    destruct (lastConfig (app w)); simpl in H; by simplify_eq.
  - destruct (resultVisible (app w)); by simplify_eq.
  - destruct (resultVisible (app w)); by simplify_eq.
  - destruct (bool_decide _); by simplify_eq.
  - destruct (bool_decide _); [|done].
    destruct (handleSendMessage_call (app w)); by simplify_eq.
  - destruct (chatting w); by simplify_eq.
Qed.

Lemma mountForm_ok : formOk (mountForm None).
Proof. split; simpl; [lia | done]. Qed.

Lemma render_settled w :
  noExtend w → (∀ fm, form w = Some fm → reads fm = [] ∧ formOk (state fm)) →
  settled (render w).
Proof.
  intros Hw Hform. split; [by apply render_noExtend|].
  unfold render. destruct (formVisible (app w)).
  - destruct (form w) as [fm|] eqn:Hf; [by rewrite Hf|].
    simpl. intros ? [= <-]. simpl. split; [done|].
    destruct Hw as [-> _]. apply mountForm_ok.
  - done.
Qed.

Lemma step_OnForm fe w w' :
  step (OnForm fe) w = Some w' →
  ∃ fm fm', form w = Some fm ∧ formStep fe fm = Some fm'
            ∧ w' = render (setForm (Some fm') w).
Proof.
  unfold step, handle. intros H.
  apply fmap_Some in H as (w1 & H & ->).
  apply bind_Some in H as (fm & Hf & H).
  apply bind_Some in H as (fm' & Hs & H).
  simplify_eq. eauto.
Qed.

(** An event that is neither a file pick nor a read settling keeps the
    page [settled]. *)
Lemma step_settled_quiet e w w' :
  (∀ fe, e = OnForm fe → isPickOrRead fe = false) →
  settled w → step e w = Some w' → settled w'.
Proof.
  intros He [Hw Hform] H.
  assert ((∃ fe, e = OnForm fe) ∨ ∀ fe, e ≠ OnForm fe) as [[fe ->]|Hne]
    by (destruct e; eauto).
  - assert (noExtend w') as Hw' by eauto using step_noExtend.
    apply step_OnForm in H as (fm & fm' & Hf & Hstep & ->).
    destruct (Hform _ Hf) as [Hreads Hok].
    destruct (formStep_quiet _ _ _ (He _ eq_refl) Hok Hstep) as [Hok' Hreads'].
    split; [done|]. unfold render. simpl.
    destruct (formVisible (app w)); simpl; [|done].
    intros ? [= <-]. split; congruence.
  - unfold step in H. apply fmap_Some in H as (w1 & Hh & ->).
    apply render_settled; [by eapply handle_noExtend|].
    by rewrite (handle_form_frame _ _ _ Hne Hh).
Qed.

Lemma step_settled_pair sl f ev w w1 w2 :
  settled w → step (OnForm (PickFile sl f)) w = Some w1 →
  step (OnForm (ReadSettles 0 ev)) w1 = Some w2 → settled w2.
Proof.
  intros [Hw Hform] H1 H2.
  split; [by eauto using step_noExtend|].
  apply step_OnForm in H1 as (fm & fm1 & Hf & Hs1 & ->).
  apply step_OnForm in H2 as (fm1' & fm2 & Hf1 & Hs2 & ->).
  destruct (Hform _ Hf) as [Hreads Hok].
  unfold render in Hf1 |- *. simpl in Hf1 |- *.
  destruct (formVisible (app w)) eqn:Hvis; simpl in Hf1 |- *;
    rewrite ?Hvis; simpl; [|done].
  simplify_eq. intros ? [= <-].
  by destruct (formStep_pick_settle _ _ _ _ _ _ Hok Hreads Hs1 Hs2).
Qed.

(** Along a run in which every read settles before the next event the
    page stays [settled]. *)
Lemma run_settled es w w' :
  readsSettleFirst es = true → settled w → run es w = Some w' → settled w'.
Proof.
  remember (length es) as n eqn:Hn. revert es w Hn.
  induction (lt_wf n) as [n _ IH]. intros es w -> Hes Hw H.
  destruct es as [|e es]; simpl in H; [by simplify_eq|].
  apply bind_Some in H as (w1 & H1 & H).
  assert ((∃ sl f, e = OnForm (PickFile sl f)) ∨ (∃ i ev, e = OnForm (ReadSettles i ev))
          ∨ (∀ fe, e = OnForm fe → isPickOrRead fe = false)) as [(sl & f & ->)|[(i & ev & ->)|Hq]].
  { destruct e as [| fe | | | | | | | |]; try (right; right; intros ? [=]; done).
    destruct fe; eauto; right; right; by intros ? [= <-]. }
  - simpl in Hes. destruct es as [|e2 es]; [done|].
    destruct e2 as [| [] | | | | | | | |]; try done.
    destruct i; [|done].
    simpl in H. apply bind_Some in H as (w2 & H2 & H).
    eapply (IH (length es)); [simpl; lia | done | done | | done].
    by eapply step_settled_pair.
  - done.
  - eapply (IH (length es)); [simpl; lia | done | | | done].
    + destruct e as [| fe | | | | | | | |]; try done.
      specialize (Hq _ eq_refl). by destruct fe.
    + by eapply step_settled_quiet.
Qed.

Lemma boot_settled : settled boot.
Proof.
  split; [apply boot_noExtend|]. simpl. intros ? [= <-]. split; [done|].
  apply mountForm_ok.
Qed.

(** C3.  Four files picked while the add upload is still shown, their
    reads settling afterwards, leave four reference images in the form:
    the fourth add is not refused. *)
Lemma fourth_reference_is_added :
  ∃ w fm, run fourReferences boot = Some w ∧ form w = Some fm
          ∧ length (referenceImages (fields (state fm))) = 4%nat.
Proof.
  assert ((w ← run fourReferences boot; fm ← form w;
           Some (length (referenceImages (fields (state fm))))) = Some 4%nat)
    as H by (vm_compute; reflexivity).
  apply bind_Some in H as (w & Hrun & H).
  apply bind_Some in H as (fm & Hform & H).
  exists w, fm. split_and!; congruence.
Qed.

(** C3, amended.  The add upload of the references branch is on the
    page only while fewer than three images are held, and along every
    run in which each file read settles before the next event the list
    holds at most three images.  The add callback itself appends
    whatever the list holds. *)
Theorem referenceImages_capped_by_upload (es : list Event) (w : World) (fm : Form)
    (Hsettle : readsSettleFirst es = true)
    (Hrun : run es boot = Some w)
    (Hform : form w = Some fm) :
  (length (referenceImages (fields (state fm))) ≤ 3)%nat
  ∧ (uploadRendered ReferenceSlot (state fm) = true →
       (length (referenceImages (fields (state fm))) < 3)%nat)
  ∧ (∀ s img, referenceImages (fields (onSelect ReferenceSlot img s))
              = referenceImages (fields s) ++ [img]).
Proof.
  destruct (run_settled _ _ _ Hsettle boot_settled Hrun) as [_ Hw].
  destruct (Hw _ Hform) as [_ [Hlen _]].
  split_and!; [done | | done].
  unfold uploadRendered. intros [_ H]%andb_true_iff.
  by apply bool_decide_eq_true in H.
Qed.

Lemma referenceImages_capped_by_upload_witness :
  ∃ w fm, run threeReferences boot = Some w ∧ form w = Some fm
          ∧ (length (referenceImages (fields (state fm))) ≤ 3)%nat.
Proof.
  assert (is_Some (w ← run threeReferences boot; form w)) as [fm H]
    by (vm_compute; by eexists).
  apply bind_Some in H as (w & Hrun & Hform).
  exists w, fm. split_and!; [done | done |].
  exact (proj1 (referenceImages_capped_by_upload threeReferences w fm
                  eq_refl Hrun Hform)).
Defined.

(** C5.  The end-frame file is picked while the loop box is unticked,
    the box is ticked while the file is being read, and the read then
    delivers the end frame: the form loops and holds an end frame. *)
Theorem loop_race_keeps_end_frame :
  ∃ w fm, run loopRace boot = Some w ∧ form w = Some fm
          ∧ isLooping (fields (state fm)) = true
          ∧ endFrame (fields (state fm))
            = Some {| file := 2%nat; base64 := js "aGk=" |}.
Proof.
  assert ((w ← run loopRace boot; fm ← form w;
           Some (isLooping (fields (state fm)), endFrame (fields (state fm))))
          = Some (true, Some {| file := 2%nat; base64 := js "aGk=" |}))
    as H by (vm_compute; reflexivity).
  apply bind_Some in H as (w & Hrun & H).
  apply bind_Some in H as (fm & Hform & H).
  exists w, fm. split_and!; congruence.
Qed.

(** X18.  Along every run in which each file read settles before the next
    event, a looping form holds no end frame. *)
Lemma looping_without_end_frame_when_settled es w fm :
  readsSettleFirst es = true → run es boot = Some w → form w = Some fm →
  isLooping (fields (state fm)) = true → endFrame (fields (state fm)) = None.
Proof.
  intros Hsettle Hrun Hform.
  destruct (run_settled _ _ _ Hsettle boot_settled Hrun) as [_ Hw].
  by destruct (Hw _ Hform) as [_ [_ Hloop]].
Qed.

(** * Further properties of the code *)

(** ** The submit tooltip *)

(** X1.  The tooltip text is non-empty exactly when the submit button is
    disabled: every disabled form explains itself and an enabled one
    shows no tooltip. *)
Theorem tooltip_iff_disabled (s : FormState) :
  tooltipText s ≠ [] ↔ isSubmitDisabled s = true.
Proof.
  unfold tooltipText, isSubmitDisabled.
  destruct (mode (fields s)).
  - by destruct (negb _).
  - by destruct (negb _).
  - destruct (bool_decide _), (negb _); simpl; by split.
  - by destruct (negb _).
Qed.

(** ** Removing a reference image *)

Lemma filterIndex_above {A} (target j : nat) (l : list A) :
  (target < j)%nat → filterIndex (λ i, negb (Nat.eqb i target)) j l = l.
Proof.
  revert j. induction l as [|x l IH]; intros j Hj; [done|].
  cbn [filterIndex]. destruct (Nat.eqb_spec j target) as [?|_]; [lia|].
  cbn [negb]. f_equal. apply IH. lia.
Qed.

Lemma filterIndex_delete {A} (target k index : nat) (l : list A) :
  target = (k + index)%nat →
  filterIndex (λ i, negb (Nat.eqb i target)) k l = delete index l.
Proof.
  revert k index. induction l as [|x l IH]; intros k index ->; [done|].
  cbn [filterIndex]. destruct index as [|index].
  - destruct (Nat.eqb_spec k (k + 0)) as [_|?]; [|lia].
    cbn [negb]. apply filterIndex_above. lia.
  - destruct (Nat.eqb_spec k (k + S index)) as [?|_]; [lia|].
    cbn [negb]. simpl. f_equal. apply IH. lia.
Qed.

(** X2.  The remove button of the [index]-th reference image deletes exactly
    that entry and keeps the others in order: the list gets one shorter
    when [index] is in range and is unchanged otherwise. *)
Theorem removeAt_deletes_one (index : nat) (imgs : list ImageFile) :
  removeAt index imgs = take index imgs ++ drop (S index) imgs
  ∧ ((index < length imgs)%nat → S (length (removeAt index imgs)) = length imgs)
  ∧ ((length imgs ≤ index)%nat → removeAt index imgs = imgs)
  ∧ (∀ j, (j < index)%nat → removeAt index imgs !! j = imgs !! j)
  ∧ (∀ j, (index ≤ j)%nat → removeAt index imgs !! j = imgs !! S j).
Proof.
  assert (removeAt index imgs = delete index imgs) as ->.
  { unfold removeAt. by apply filterIndex_delete. }
  split_and!.
  - by rewrite delete_take_drop.
  - intros H. rewrite length_delete; [lia|]. by apply lookup_lt_is_Some.
  - intros H. rewrite delete_take_drop, take_ge, drop_ge by lia.
    by rewrite app_nil_r.
  - intros j H. by apply list_lookup_delete_lt.
  - intros j H. by apply list_lookup_delete_ge.
Qed.

Lemma removeAt_deletes_one_witness :
  S (length (removeAt 1 [ {| file := 1%nat; base64 := js "QQ==" |};
                          {| file := 2%nat; base64 := js "Qg==" |};
                          {| file := 3%nat; base64 := js "Qw==" |} ])) = 3%nat.
Proof.
  refine (proj1 (proj2 (removeAt_deletes_one 1 _)) _). simpl. lia.
Defined.

(** ** More on [fileToBase64] *)

(** X3.  [fileToBase64] returns what stands between the first and the second
    comma of the read result: anything after a second comma is dropped,
    an empty stretch is rejected, and a result without a comma is
    rejected. *)
Theorem fileToBase64_takes_second_segment
    (f : File) (pre payload rest : jsstring)
    (Hpre : comma ∉ pre) (Hpayload : comma ∉ payload) :
  fileToBase64 f (onload (pre ++ comma :: payload))
  = (if truthy payload then Resolved {| file := f; base64 := payload |}
     else Rejected (ErrorObj (js "Failed to read file as base64.")))
  ∧ fileToBase64 f (onload (pre ++ comma :: payload ++ comma :: rest))
    = fileToBase64 f (onload (pre ++ comma :: payload))
  ∧ (∀ s, comma ∉ s →
       fileToBase64 f (onload s)
       = Rejected (ErrorObj (js "Failed to read file as base64."))).
Proof.
  unfold fileToBase64. split_and!.
  - by rewrite split_app_sep, (split_no_sep _ payload).
  - by rewrite !split_app_sep, (split_no_sep _ payload).
  - intros s Hs. by rewrite split_no_sep.
Qed.

Lemma fileToBase64_takes_second_segment_witness :
  fileToBase64 3%nat (onload (js "data:text/plain" ++ comma :: js "aGk=" ++ comma :: js "tail"))
  = Resolved {| file := 3%nat; base64 := js "aGk=" |}.
Proof.
  assert (comma ∉ js "data:text/plain") as Hpre by by_eval.
  assert (comma ∉ js "aGk=") as Hpayload by by_eval.
  destruct (fileToBase64_takes_second_segment 3%nat _ _ (js "tail") Hpre Hpayload)
    as (H1 & H2 & _).
  rewrite H2, H1. reflexivity.
Defined.

(** ** The loading indicator *)

(** X4.  After [n] ticks the indicator shows message [n mod 16]: the index
    never leaves the list, the messages come in order, and the display
    repeats every sixteen ticks. *)
Theorem messageIndex_cycles (n : nat) :
  messageIndexAfter n = (n `mod` 16)%nat
  ∧ is_Some (loadingMessages !! messageIndexAfter n)
  ∧ messageIndexAfter (n + 16) = messageIndexAfter n.
Proof.
  assert (∀ k, messageIndexAfter k = (k `mod` 16)%nat) as Hmod.
  { induction k as [|k IH]; [done|].
    change (messageIndexAfter (S k)) with (nextMessageIndex (messageIndexAfter k)).
    rewrite IH. unfold nextMessageIndex.
    change (length loadingMessages) with 16%nat.
    rewrite Nat.Div0.add_mod_idemp_l. f_equal. lia. }
  split_and!.
  - apply Hmod.
  - apply lookup_lt_is_Some. rewrite Hmod.
    change (length loadingMessages) with 16%nat.
    apply Nat.mod_upper_bound. lia.
  - rewrite !Hmod.
    replace (n + 16)%nat with (n + 1 * 16)%nat by lia.
    by rewrite Nat.Div0.mod_add.
Qed.

(** ** The generation flow as a whole *)

Lemma render_coherent w : flowOk w → coherent (render w).
Proof.
  intros Hw. unfold coherent, render.
  destruct (formVisible (app w)) eqn:Hvis.
  - destruct (form w) eqn:Hf; (split; [exact Hw|]); simpl; rewrite ?Hf, ?Hvis;
      split; eauto.
  - split; [exact Hw|]. simpl. rewrite Hvis. split; [by intros [? ?]|done].
Qed.

Lemma formVisible_idle a : formVisible a = true → appState a = IDLE.
Proof.
  unfold formVisible. intros [_ H]%andb_true_iff. by apply bool_decide_eq_true in H.
Qed.

Lemma resultVisible_success a : resultVisible a = true → appState a = SUCCESS.
Proof.
  unfold resultVisible. intros [[_ H]%andb_true_iff _]%andb_true_iff.
  by apply bool_decide_eq_true in H.
Qed.

Lemma flowOk_pending w i params :
  flowOk w → generating w !! i = Some params →
  appState (app w) = LOADING ∧ i = 0%nat ∧ generating w = [params]
  ∧ lastConfig (app w) = Some params ∧ errorMessage (app w) = None.
Proof.
  unfold flowOk. intros Hw Hi.
  destruct (appState (app w)).
  - destruct Hw as [Hg _]. by rewrite Hg in Hi.
  - destruct Hw as (p & Hg & Hl & He). rewrite Hg in Hi.
    destruct i as [|i]; simpl in Hi; [|done]. by simplify_eq.
  - destruct Hw as [Hg _]. by rewrite Hg in Hi.
  - destruct Hw as [Hg _]. by rewrite Hg in Hi.
Qed.

Lemma handle_flowOk e w w' : coherent w → handle e w = Some w' → flowOk w'.
Proof.
  intros [Hw Hform]. destruct e; simpl; intros H.
  - simplify_eq. exact Hw.
  - apply bind_Some in H as (fm & Hf & H).
    apply bind_Some in H as (fm' & Hs & H). simplify_eq. exact Hw.
  - apply bind_Some in H as (fm & Hf & H).
    destruct (isSubmitDisabled (state fm)); [done|]. simplify_eq.
    assert (appState (app w) = IDLE) as Hidle.
    { apply formVisible_idle, Hform. by rewrite Hf. }
    unfold flowOk in Hw |- *. rewrite Hidle in Hw. destruct Hw as [Hg _].
    simpl. rewrite Hg. by eexists.
  - apply bind_Some in H as (params & Hi & H).
    destruct (flowOk_pending _ _ _ Hw Hi) as (Hst & -> & Hg & Hl & He).
    destruct o as [b v|err]; simpl in H; simplify_eq;
      unfold flowOk; simpl; rewrite ?Hg, ?Hl; simpl; split_and!; eauto.
  - destruct (resultVisible (app w)) eqn:Hvis; [|done].
    apply bind_Some in H as (params & Hl & H). simplify_eq.
    apply resultVisible_success in Hvis.
    unfold flowOk in Hw |- *. rewrite Hvis in Hw. destruct Hw as [Hg _].
    simpl. rewrite Hg. by eexists.
  - destruct (resultVisible (app w)) eqn:Hvis; [|done]. simplify_eq.
    apply resultVisible_success in Hvis.
    unfold flowOk in Hw |- *. rewrite Hvis in Hw. simpl. tauto.
  - destruct (resultVisible (app w)); by simplify_eq.
  - destruct (bool_decide _); simplify_eq. exact Hw.
  - destruct (bool_decide _); [|done].
    unfold handleSendMessage_call in H.
    destruct (negb _); simplify_eq; exact Hw.
  - destruct (chatting w); simplify_eq. destruct o; exact Hw.
Qed.

Lemma step_coherent e w w' : coherent w → step e w = Some w' → coherent w'.
Proof.
  unfold step. intros Hw H. apply fmap_Some in H as (w1 & Hh & ->).
  eauto using render_coherent, handle_flowOk.
Qed.

Lemma run_coherent es w w' : coherent w → run es w = Some w' → coherent w'.
Proof.
  revert w. induction es as [|e es IH]; simpl; intros w Hw H.
  - by simplify_eq.
  - apply bind_Some in H as (w1 & H1 & H). eauto using step_coherent.
Qed.

Lemma boot_coherent : coherent boot.
Proof. split; [done|]. split; [done | by eexists]. Qed.

(** X5.  At most one call of [generateVideo] is pending at any time, and one
    is pending exactly while the page is in the loading state: the page
    itself serialises generations, whatever the user does. *)
Theorem generation_is_single_flight (es : list Event) (w : World)
    (Hrun : run es boot = Some w) :
  (length (generating w) ≤ 1)%nat
  ∧ (generating w ≠ [] ↔ appState (app w) = LOADING)
  ∧ (∀ e w', step e w = Some w' → generating w ≠ [] →
       (length (generating w') ≤ 1)%nat
       ∧ (generating w' = generating w ∨ generating w' = [])).
Proof.
  pose proof (run_coherent _ _ _ boot_coherent Hrun) as Hw.
  assert (∀ w0, coherent w0 →
            (length (generating w0) ≤ 1)%nat
            ∧ (generating w0 ≠ [] ↔ appState (app w0) = LOADING)) as Hone.
  { intros w0 [Hf _]. unfold flowOk in Hf. destruct (appState (app w0)).
    - destruct Hf as [-> _]. split; [simpl; lia|]. by split.
    - destruct Hf as (p & -> & _). split; [simpl; lia|]. by split.
    - destruct Hf as [-> _]. split; [simpl; lia|]. by split.
    - destruct Hf as [-> _]. split; [simpl; lia|]. by split. }
  destruct (Hone _ Hw) as [Hlen Hiff]. split_and!; [done..|].
  intros e w' Hstep Hne.
  split; [by apply (Hone w'), (step_coherent e w)|].
  apply Hiff in Hne. unfold step in Hstep.
  apply fmap_Some in Hstep as (w1 & Hh & ->).
  assert (generating (render w1) = generating w1) as ->.
  { unfold render. by destruct (formVisible _), (form w1). }
  destruct Hw as [Hf Hform].
  destruct e; simpl in Hh.
  - simplify_eq. by left.
  - apply bind_Some in Hh as (fm & Hfm & Hh).
    apply bind_Some in Hh as (fm' & Hs & Hh). simplify_eq. by left.
  - apply bind_Some in Hh as (fm & Hfm & Hh).
    assert (appState (app w) = IDLE); [|congruence].
    apply formVisible_idle, Hform. by rewrite Hfm.
  - apply bind_Some in Hh as (params & Hi & Hh).
    destruct (flowOk_pending _ _ _ Hf Hi) as (_ & -> & Hg & _ & _).
    right. destruct o; simpl in Hh; simplify_eq; simpl; by rewrite Hg.
  - destruct (resultVisible (app w)) eqn:Hvis; [|done].
    apply resultVisible_success in Hvis. congruence.
  - destruct (resultVisible (app w)) eqn:Hvis; [|done].
    apply resultVisible_success in Hvis. congruence.
  - destruct (resultVisible (app w)); simplify_eq. by left.
  - destruct (bool_decide _); simplify_eq. by left.
  - destruct (bool_decide _); [|done].
    destruct (handleSendMessage_call (app w)); simplify_eq; by left.
  - destruct (chatting w); simplify_eq. by left.
Qed.

Lemma generation_is_single_flight_witness :
  ∃ w, run submitPrompt boot = Some w ∧ (length (generating w) ≤ 1)%nat.
Proof.
  destruct (run submitPrompt boot) as [w|] eqn:Hrun;
    [|vm_compute in Hrun; discriminate].
  exists w. split; [reflexivity|].
  exact (proj1 (generation_is_single_flight submitPrompt w Hrun)).
Defined.

(** X6.  In every state of the page the cells agree with [appState]: an
    error message is stored exactly in the error state, the success
    state always has a video URL, so the result view is shown whenever
    the studio tab is, and outside the idle state the request of the
    last call is remembered, so the retry callback never finds
    [lastConfig] empty. *)
Theorem state_cells_agree (es : list Event) (w : World)
    (Hrun : run es boot = Some w) :
  (is_Some (errorMessage (app w)) ↔ appState (app w) = ERROR)
  ∧ (appState (app w) = SUCCESS →
       is_Some (videoUrl (app w))
       ∧ resultVisible (app w) = bool_decide (activeTab (app w) = studio))
  ∧ (appState (app w) ≠ IDLE → is_Some (lastConfig (app w)))
  ∧ (resultVisible (app w) = true → is_Some (handle Retry w))
  ∧ (is_Some (form w) ↔ activeTab (app w) = studio ∧ appState (app w) = IDLE).
Proof.
  destruct (run_coherent _ _ _ boot_coherent Hrun) as [Hf Hform].
  unfold flowOk in Hf.
  assert (appState (app w) = SUCCESS → is_Some (lastConfig (app w))) as Hretry.
  { intros Hs. rewrite Hs in Hf. tauto. }
  split_and!.
  - destruct (appState (app w)).
    + destruct Hf as [_ ->]. split; [by intros [? ?]|done].
    + destruct Hf as (p & _ & _ & ->). split; [by intros [? ?]|done].
    + destruct Hf as (_ & -> & _). split; [by intros [? ?]|done].
    + by destruct Hf as (_ & ? & _).
  - intros Hs. rewrite Hs in Hf. destruct Hf as (_ & _ & Hurl & _).
    split; [done|]. unfold resultVisible. rewrite Hs.
    rewrite (bool_decide_eq_true_2 (is_Some _)) by done.
    by rewrite (bool_decide_eq_true_2 (SUCCESS = SUCCESS)), !andb_true_r.
  - destruct (appState (app w)); intros H; [done| | |].
    + destruct Hf as (p & _ & -> & _). by eexists.
    + by destruct Hf as (_ & _ & _ & ? & _).
    + by destruct Hf as (_ & _ & ?).
  - intros Hvis. simpl. rewrite Hvis.
    destruct (Hretry (resultVisible_success _ Hvis)) as [p ->]. by eexists.
  - rewrite Hform. unfold formVisible.
    by rewrite andb_true_iff, !bool_decide_eq_true.
Qed.

Lemma state_cells_agree_witness :
  ∃ w, run twoGenerations boot = Some w ∧ is_Some (videoUrl (app w)).
Proof.
  assert ((w ← run twoGenerations boot; Some (appState (app w))) = Some SUCCESS)
    as Hst by (vm_compute; reflexivity).
  apply bind_Some in Hst as (w & Hrun & Hst). exists w. split; [done|].
  refine (proj1 (proj1 (proj2 (state_cells_agree twoGenerations w Hrun)) _)).
  congruence.
Defined.

(** X7.  The error state is a dead end: once a generation has failed no event
    of the page changes [appState] again, the form is gone, and the
    stored message stays as it is. *)
Theorem error_state_is_final (es : list Event) (w : World) (e : Event) (w' : World)
    (Hrun : run es boot = Some w)
    (Herror : appState (app w) = ERROR)
    (Hstep : step e w = Some w') :
  appState (app w') = ERROR
  ∧ errorMessage (app w') = errorMessage (app w)
  ∧ form w' = None
  ∧ resultVisible (app w') = false.
Proof.
  destruct (run_coherent _ _ _ boot_coherent Hrun) as [Hf Hform].
  unfold flowOk in Hf. rewrite Herror in Hf. destruct Hf as (Hg & _ & _).
  assert (form w = None) as Hnone.
  { destruct (form w) eqn:Hfm; [|done].
    assert (appState (app w) = IDLE); [|congruence].
    apply formVisible_idle, Hform. by eexists. }
  assert (resultVisible (app w) = false) as Hres.
  { destruct (resultVisible (app w)) eqn:Hvis; [|done].
    apply resultVisible_success in Hvis. congruence. }
  unfold step in Hstep. apply fmap_Some in Hstep as (w1 & Hh & ->).
  assert (appState (app w1) = ERROR ∧ errorMessage (app w1) = errorMessage (app w))
    as [Hst Hmsg].
  { destruct e; simpl in Hh; rewrite ?Hnone, ?Hres, ?Hg in Hh; try done.
    - by simplify_eq.
    - destruct (bool_decide _); by simplify_eq.
    - destruct (bool_decide _); [|done].
      unfold handleSendMessage_call in Hh. destruct (negb _); by simplify_eq.
    - destruct (chatting w); simplify_eq. by destruct o. }
  assert (formVisible (app w1) = false) as Hvis.
  { unfold formVisible. rewrite Hst.
    by rewrite (bool_decide_eq_false_2 (ERROR = IDLE)), andb_false_r. }
  unfold render. rewrite Hvis. simpl. split_and!; [done..|].
  unfold resultVisible. rewrite Hst.
  by rewrite (bool_decide_eq_false_2 (ERROR = SUCCESS)), andb_false_r.
Qed.

Lemma error_state_is_final_witness :
  ∃ w w', run failsWithEmptyError boot = Some w
          ∧ step (SetActiveTab dialog) w = Some w'
          ∧ appState (app w') = ERROR.
Proof.
  assert ((w ← run failsWithEmptyError boot; Some (appState (app w))) = Some ERROR)
    as Hst by (vm_compute; reflexivity).
  apply bind_Some in Hst as (w & Hrun & [= Hst]).
  exists w, (render (onApp (setActiveTab dialog) w)).
  split_and!; [done | done |].
  exact (proj1 (error_state_is_final failsWithEmptyError w (SetActiveTab dialog) _
                  Hrun Hst eq_refl)).
Defined.

(** ** What the form and its requests always satisfy *)

Lemma isRefMode_true s : isRefMode s = true ↔ mode (fields s) = REFERENCES_TO_VIDEO.
Proof. apply bool_decide_eq_true. Qed.
Lemma isExtendMode_true s : isExtendMode s = true ↔ mode (fields s) = EXTEND_VIDEO.
Proof. apply bool_decide_eq_true. Qed.
Lemma isAnimateMode_true s : isAnimateMode s = true ↔ mode (fields s) = ANIMATE_IMAGE.
Proof. apply bool_decide_eq_true. Qed.

Lemma selectMode_fieldsOk m s :
  m ∈ selectableModes → fieldsOk (fields s) → fieldsOk (fields (selectMode m s)).
Proof.
  intros Hm (Hst & Hiv & Hivo & Hmode & Href & Hloop).
  assert (m ≠ EXTEND_VIDEO) as Hne.
  { intros ->. by apply extend_not_selectable. }
  unfold selectMode. destruct (decide (mode (fields s) = m)) as [<-|Hchg].
  - unfold fieldsOk. simpl. split_and!; done.
  - destruct m; unfold fieldsOk; simpl; split_and!; done.
Qed.

Lemma formStep_fieldsOk e fm fm' :
  fieldsOk (fields (state fm)) →
  Forall (λ rd, slot rd ≠ BaseVideoSlot) (reads fm) →
  formStep e fm = Some fm' →
  fieldsOk (fields (state fm'))
  ∧ Forall (λ rd, slot rd ≠ BaseVideoSlot) (reads fm').
Proof.
  intros Hok Hrd. pose proof Hok as (Hst & Hiv & Hivo & Hmode & Href & Hloop).
  destruct e; simpl; intros H; try by_guard H; simplify_option_eq;
    unfold engineDisabled, formatDisabled, qualityDisabled in *;
    repeat match goal with
    | H : _ && _ = true |- _ => apply andb_true_iff in H as [? ?]
    | H : negb _ = true |- _ => apply negb_true_iff in H
    | H : _ || _ = false |- _ => apply orb_false_iff in H as [? ?]
    | H : isRefMode _ = true |- _ => apply isRefMode_true in H
    | H : isExtendMode _ = true |- _ => apply isExtendMode_true in H
    | H : isAnimateMode _ = true |- _ => apply isAnimateMode_true in H
    | H : isRefMode _ = false |- _ => apply bool_decide_eq_false in H
    | H : isExtendMode _ = false |- _ => apply bool_decide_eq_false in H
    end;
    try done; try (split; [|done]).
  all: try (unfold fieldsOk; simpl; split_and!; done).
  - by apply selectMode_fieldsOk.
  - split; [done|]. apply Forall_app. split; [done|].
    constructor; [|done]. simpl. intros ->.
    match goal with H : uploadRendered _ _ = true |- _ =>
      simpl in H; apply andb_true_iff in H as [H _];
      apply isExtendMode_true in H end.
    done.
  - match goal with H : reads fm !! _ = Some ?rd |- _ =>
      pose proof (proj1 (Forall_lookup _ _) Hrd _ _ H) as Hslot; simpl in Hslot;
      destruct (fileToBase64 (picked rd) ev) as [media|];
      [destruct (slot rd)|]
    end; (split; [|by apply Forall_delete]); try done;
      unfold fieldsOk; simpl.
    split_and!; try done. intros Hl. split; [by apply Hloop | by eexists].
  - match goal with H : bool_decide (is_Some _) = true |- _ =>
      apply bool_decide_eq_true in H end.
    unfold onLoopChange. destruct checked; unfold fieldsOk; simpl;
      split_and!; done.
Qed.

Lemma mountForm_fieldsOk : fieldsOk (fields (mountForm None)).
Proof. unfold fieldsOk. simpl. split_and!; done. Qed.

Lemma render_requestsOk w : requestsOk w → requestsOk (render w).
Proof.
  intros Hw. pose proof Hw as (Hiv & Hform & Hgen & Hlast). unfold render.
  destruct (formVisible (app w)).
  - destruct (form w) eqn:Hf; [exact Hw|].
    split_and!; [done | | done | done].
    simpl. intros ? [= <-]. simpl. rewrite Hiv.
    split; [apply mountForm_fieldsOk | constructor].
  - by split_and!.
Qed.

Lemma handle_requestsOk e w w' :
  requestsOk w → handle e w = Some w' → requestsOk w'.
Proof.
  intros Hw. pose proof Hw as (Hiv & Hform & Hgen & Hlast).
  destruct e; simpl; intros H.
  - simplify_eq. exact Hw.
  - apply bind_Some in H as (fm & Hf & H).
    apply bind_Some in H as (fm' & Hs & H). simplify_eq.
    destruct (Hform _ Hf) as [Hok Hrd].
    split_and!; [done | | done | done].
    simpl. intros ? [= <-]. by eapply formStep_fieldsOk.
  - apply bind_Some in H as (fm & Hf & H).
    destruct (isSubmitDisabled (state fm)) eqn:Hdis; [done|]. simplify_eq.
    destruct (Hform _ Hf) as [Hok Hrd].
    apply isSubmitDisabled_spec in Hdis.
    split_and!; simpl; [done | done | | by intros ? [= <-]].
    apply Forall_app. split; [done|]. by constructor.
  - apply bind_Some in H as (params & Hi & H).
    assert (Forall (λ p, fieldsOk p ∧ readiness p) (delete i (generating w)))
      by by apply Forall_delete.
    destruct o as [b v|err]; simpl in H; simplify_eq; by split_and!.
  - destruct (resultVisible (app w)); [|done].
    apply bind_Some in H as (params & Hl & H). simplify_eq.
    split_and!; simpl; [done | done | | by intros ? [= <-]; apply Hlast].
    apply Forall_app. split; [done|]. constructor; [by apply Hlast | done].
  - destruct (resultVisible (app w)); simplify_eq. by split_and!.
  - destruct (resultVisible (app w)); by simplify_eq.
  - destruct (bool_decide _); simplify_eq. by split_and!.
  - destruct (bool_decide _); [|done].
    unfold handleSendMessage_call in H.
    destruct (negb _); simplify_eq; [exact Hw | by split_and!].
  - destruct (chatting w); simplify_eq. destruct o; by split_and!.
Qed.

Lemma run_requestsOk es w w' : requestsOk w → run es w = Some w' → requestsOk w'.
Proof.
  revert w. induction es as [|e es IH]; simpl; intros w Hw H.
  - by simplify_eq.
  - apply bind_Some in H as (w1 & H1 & H). apply (IH w1); [|done].
    unfold step in H1. apply fmap_Some in H1 as (w0 & Hh & ->).
    eauto using render_requestsOk, handle_requestsOk.
Qed.

Lemma boot_requestsOk : requestsOk boot.
Proof.
  split_and!; [done | | constructor | done].
  simpl. intros ? [= <-]. split; [apply mountForm_fieldsOk | constructor].
Qed.

(** X8.  Every request handed to [generateVideo], by a submit or by a retry,
    satisfies the readiness row of its mode, and so does the request
    remembered for the next retry. *)
Theorem requests_are_ready (es : list Event) (w : World)
    (Hrun : run es boot = Some w) :
  (∀ p, p ∈ generating w → readiness p)
  ∧ (∀ p, lastConfig (app w) = Some p → readiness p)
  ∧ (∀ w' p, step Retry w = Some w' → p ∈ generating w' → readiness p).
Proof.
  pose proof (run_requestsOk _ _ _ boot_requestsOk Hrun) as Hw.
  assert (∀ w0, requestsOk w0 → ∀ p, p ∈ generating w0 → readiness p) as Hall.
  { intros w0 (_ & _ & Hgen & _) p Hp.
    rewrite Forall_forall in Hgen. by apply Hgen. }
  split_and!.
  - by apply Hall.
  - intros p Hp. by apply Hw.
  - intros w' p Hstep. apply Hall.
    unfold step in Hstep. apply fmap_Some in Hstep as (w0 & Hh & ->).
    eauto using render_requestsOk, handle_requestsOk.
Qed.

Lemma requests_are_ready_witness :
  ∃ w, run submitPrompt boot = Some w ∧ ∀ p, p ∈ generating w → readiness p.
Proof.
  destruct (run submitPrompt boot) as [w|] eqn:Hrun;
    [|vm_compute in Hrun; discriminate].
  exists w. split; [reflexivity|].
  exact (proj1 (requests_are_ready submitPrompt w Hrun)).
Defined.

(** X9.  No handler ever stores a style image, a base video or a remote video
    object: in every state of the page these three cells of the form are
    empty, and so they are in every request sent or remembered. *)
Theorem style_and_base_video_never_set (es : list Event) (w : World)
    (Hrun : run es boot = Some w) :
  (∀ fm, form w = Some fm →
     styleImage (fields (state fm)) = None
     ∧ inputVideo (fields (state fm)) = None
     ∧ inputVideoObject (fields (state fm)) = None)
  ∧ (∀ p, p ∈ generating w ∨ lastConfig (app w) = Some p →
       styleImage p = None ∧ inputVideo p = None ∧ inputVideoObject p = None).
Proof.
  destruct (run_requestsOk _ _ _ boot_requestsOk Hrun) as (_ & Hform & Hgen & Hlast).
  split.
  - intros fm Hf. destruct (Hform _ Hf) as [(? & ? & ? & _) _]. done.
  - intros p [Hp|Hp].
    + rewrite Forall_forall in Hgen. destruct (Hgen _ Hp) as [(? & ? & ? & _) _]. done.
    + destruct (Hlast _ Hp) as [(? & ? & ? & _) _]. done.
Qed.

Lemma style_and_base_video_never_set_witness :
  ∃ w, run fourReferences boot = Some w
       ∧ ∀ fm, form w = Some fm → styleImage (fields (state fm)) = None.
Proof.
  destruct (run fourReferences boot) as [w|] eqn:Hrun;
    [|vm_compute in Hrun; discriminate].
  exists w. split; [reflexivity|]. intros fm Hf.
  exact (proj1 (proj1 (style_and_base_video_never_set fourReferences w Hrun) fm Hf)).
Defined.

(** X10.  Whatever the user does, a form in references mode holds the standard
    engine, landscape format and 720p, and so does every references
    request sent to the service or remembered for a retry. *)
Theorem references_settings_always_forced (es : list Event) (w : World)
    (Hrun : run es boot = Some w) :
  (∀ fm, form w = Some fm → mode (fields (state fm)) = REFERENCES_TO_VIDEO →
     model (fields (state fm)) = VEO
     ∧ aspectRatio (fields (state fm)) = LANDSCAPE
     ∧ resolution (fields (state fm)) = P720)
  ∧ (∀ p, p ∈ generating w ∨ lastConfig (app w) = Some p →
       mode p = REFERENCES_TO_VIDEO →
       model p = VEO ∧ aspectRatio p = LANDSCAPE ∧ resolution p = P720).
Proof.
  destruct (run_requestsOk _ _ _ boot_requestsOk Hrun) as (_ & Hform & Hgen & Hlast).
  split.
  - intros fm Hf. destruct (Hform _ Hf) as [(_ & _ & _ & _ & Href & _) _]. done.
  - intros p [Hp|Hp].
    + rewrite Forall_forall in Hgen.
      destruct (Hgen _ Hp) as [(_ & _ & _ & _ & Href & _) _]. done.
    + destruct (Hlast _ Hp) as [(_ & _ & _ & _ & Href & _) _]. done.
Qed.

Lemma references_settings_always_forced_witness :
  ∃ w, run fourReferences boot = Some w
       ∧ ∀ fm, form w = Some fm → mode (fields (state fm)) = REFERENCES_TO_VIDEO →
           model (fields (state fm)) = VEO.
Proof.
  destruct (run fourReferences boot) as [w|] eqn:Hrun;
    [|vm_compute in Hrun; discriminate].
  exists w. split; [reflexivity|]. intros fm Hf Hm.
  exact (proj1 (proj1 (references_settings_always_forced fourReferences w Hrun) fm Hf Hm)).
Defined.

(** X11.  A looping form is in animate mode and holds a start frame, in every
    state of the page and however file reads interleave with the other
    events; the same holds of every request sent or remembered. *)
Theorem looping_needs_start_frame (es : list Event) (w : World)
    (Hrun : run es boot = Some w) :
  (∀ fm, form w = Some fm → isLooping (fields (state fm)) = true →
     mode (fields (state fm)) = ANIMATE_IMAGE
     ∧ is_Some (startFrame (fields (state fm))))
  ∧ (∀ p, p ∈ generating w ∨ lastConfig (app w) = Some p → isLooping p = true →
       mode p = ANIMATE_IMAGE ∧ is_Some (startFrame p)).
Proof.
  destruct (run_requestsOk _ _ _ boot_requestsOk Hrun) as (_ & Hform & Hgen & Hlast).
  split.
  - intros fm Hf. destruct (Hform _ Hf) as [(_ & _ & _ & _ & _ & Hloop) _]. done.
  - intros p [Hp|Hp].
    + rewrite Forall_forall in Hgen.
      destruct (Hgen _ Hp) as [(_ & _ & _ & _ & _ & Hloop) _]. done.
    + destruct (Hlast _ Hp) as [(_ & _ & _ & _ & _ & Hloop) _]. done.
Qed.

Lemma looping_needs_start_frame_witness :
  ∃ w, run loopRace boot = Some w
       ∧ ∀ fm, form w = Some fm → isLooping (fields (state fm)) = true →
           is_Some (startFrame (fields (state fm))).
Proof.
  destruct (run loopRace boot) as [w|] eqn:Hrun;
    [|vm_compute in Hrun; discriminate].
  exists w. split; [reflexivity|]. intros fm Hf Hl.
  exact (proj2 (proj1 (looping_needs_start_frame loopRace w Hrun) fm Hf Hl)).
Defined.

(** ** Submit, settle and retry *)

Lemma render_app w : app (render w) = app w.
Proof. unfold render. by destruct (formVisible _), (form w). Qed.

Lemma render_generating w : generating (render w) = generating w.
Proof. unfold render. by destruct (formVisible _), (form w). Qed.

(** X12.  A submit hands the form's twelve cells to [generateVideo] as they
    are, remembers them, and takes the form off the page; when the call
    settles the remembered request is untouched; a retry hands exactly
    the remembered request to [generateVideo] again and keeps the video
    URL of the result it retries. *)
Theorem retry_resubmits_request (es : list Event) (w w' : World)
    (Hrun : run es boot = Some w) :
  (∀ fm, form w = Some fm → step SubmitForm w = Some w' →
     generating w' = [fields (state fm)]
     ∧ lastConfig (app w') = Some (fields (state fm))
     ∧ appState (app w') = LOADING ∧ form w' = None)
  ∧ (∀ i o, step (GenerateVideoSettles i o) w = Some w' →
       lastConfig (app w') = lastConfig (app w) ∧ generating w' = []
       ∧ Some (generating w) = (λ p, [p]) <$> lastConfig (app w))
  ∧ (step Retry w = Some w' →
       ∃ p, lastConfig (app w) = Some p
            ∧ generating w' = [p] ∧ lastConfig (app w') = Some p
            ∧ appState (app w') = LOADING
            ∧ videoUrl (app w') = videoUrl (app w)).
Proof.
  destruct (run_coherent _ _ _ boot_coherent Hrun) as [Hf Hform].
  split_and!.
  - intros fm Hfm Hstep. unfold step in Hstep.
    apply fmap_Some in Hstep as (w1 & Hh & ->).
    simpl in Hh. rewrite Hfm in Hh. simpl in Hh.
    destruct (isSubmitDisabled (state fm)); [done|]. simplify_eq.
    assert (appState (app w) = IDLE) as Hidle.
    { apply formVisible_idle, Hform. by eexists. }
    unfold flowOk in Hf. rewrite Hidle in Hf. destruct Hf as [Hg _].
    rewrite render_generating, render_app. simpl. rewrite Hg.
    split_and!; [done..|].
    unfold render, formVisible. simpl. by rewrite andb_false_r.
  - intros i o Hstep. unfold step in Hstep.
    apply fmap_Some in Hstep as (w1 & Hh & ->).
    simpl in Hh. apply bind_Some in Hh as (params & Hi & Hh).
    destruct (flowOk_pending _ _ _ Hf Hi) as (_ & -> & Hg & Hl & _).
    rewrite render_generating, render_app, Hg, Hl.
    destruct o; simpl in Hh; simplify_eq; simpl; by rewrite ?Hg.
  - intros Hstep. unfold step in Hstep.
    apply fmap_Some in Hstep as (w1 & Hh & ->).
    simpl in Hh. destruct (resultVisible (app w)) eqn:Hvis; [|done].
    apply bind_Some in Hh as (p & Hl & Hh). simplify_eq.
    apply resultVisible_success in Hvis.
    unfold flowOk in Hf. rewrite Hvis in Hf. destruct Hf as [Hg _].
    exists p. rewrite render_generating, render_app. simpl. by rewrite Hg.
Qed.

Lemma retry_resubmits_request_witness :
  ∃ w w', run (submitPrompt ++ [GenerateVideoSettles 0%nat (Completed 10%nat 20%nat)]) boot
          = Some w
          ∧ step Retry w = Some w'
          ∧ ∃ p, lastConfig (app w) = Some p ∧ generating w' = [p].
Proof.
  assert (is_Some (w ← run (submitPrompt ++ [GenerateVideoSettles 0%nat (Completed 10%nat 20%nat)]) boot;
                   step Retry w)) as [w' H] by (vm_compute; by eexists).
  apply bind_Some in H as (w & Hrun & Hstep).
  exists w, w'. split_and!; [done | done |].
  destruct (proj2 (proj2 (retry_resubmits_request _ w w' Hrun)) Hstep)
    as (p & Hl & Hg & _).
  by exists p.
Defined.

(** ** The form starts over whenever it comes back *)

(** X13.  Whenever an event brings the form onto the page it is the empty
    default form with no read in flight: what was entered before a tab
    switch or a generation is not restored.  Leaving the studio tab takes
    the form off the page. *)
Theorem form_resets_on_remount (es : list Event) (w : World) (e : Event) (w' : World)
    (Hrun : run es boot = Some w)
    (Hstep : step e w = Some w') :
  (form w = None → ∀ fm, form w' = Some fm →
     fm = {| state := mountForm None; reads := [] |}
     ∧ fields (state fm) = defaultFields)
  ∧ (e = SetActiveTab dialog → form w' = None)
  ∧ (e = NewVideo → form w' = Some {| state := mountForm None; reads := [] |}).
Proof.
  pose proof (run_noExtend _ _ _ boot_noExtend Hrun) as Hne.
  destruct (run_coherent _ _ _ boot_coherent Hrun) as [Hf Hform].
  unfold step in Hstep. apply fmap_Some in Hstep as (w1 & Hh & ->).
  assert (initialFormValues (app w1) = None) as Hiv
    by by destruct (handle_noExtend _ _ _ Hne Hh).
  split_and!.
  - intros Hnone fm.
    assert (form w1 = None) as Hnone1.
    { assert ((∃ fe, e = OnForm fe) ∨ ∀ fe, e ≠ OnForm fe) as [[fe ->]|Hq]
        by (destruct e; eauto).
      - simpl in Hh. by rewrite Hnone in Hh.
      - by rewrite (handle_form_frame _ _ _ Hq Hh). }
    unfold render. rewrite Hnone1, Hiv.
    destruct (formVisible (app w1)); simpl; [|done].
    by intros [= <-].
  - intros ->. simpl in Hh. simplify_eq.
    unfold render, formVisible. simpl. done.
  - intros ->. simpl in Hh.
    destruct (resultVisible (app w)) eqn:Hvis; [|done]. simplify_eq.
    assert (activeTab (app w) = studio) as Htab.
    { unfold resultVisible in Hvis.
      apply andb_true_iff in Hvis as [[H _]%andb_true_iff _].
      by apply bool_decide_eq_true in H. }
    assert (form w = None) as Hnone.
    { destruct (form w) eqn:Hfm; [|done].
      assert (appState (app w) = IDLE) as Hidle
        by (apply formVisible_idle, Hform; by eexists).
      apply resultVisible_success in Hvis. congruence. }
    unfold render, formVisible. simpl. rewrite Htab, Hnone. simpl.
    simpl in Hiv. by rewrite Hiv.
Qed.

Lemma form_resets_on_remount_witness :
  ∃ w w', run [OnForm (ChangePrompt (js "a paper crane")); SetActiveTab dialog] boot = Some w
          ∧ step (SetActiveTab studio) w = Some w'
          ∧ ∀ fm, form w' = Some fm → fields (state fm) = defaultFields.
Proof.
  assert ((w ← run [OnForm (ChangePrompt (js "a paper crane")); SetActiveTab dialog] boot;
           Some (form w)) = Some None) as H by (vm_compute; reflexivity).
  apply bind_Some in H as (w & Hrun & [= Hnone]).
  exists w, (render (onApp (setActiveTab studio) w)).
  split_and!; [done | done |]. intros fm Hfm.
  exact (proj2 (proj1 (form_resets_on_remount _ w (SetActiveTab studio) _ Hrun eq_refl)
                  Hnone fm Hfm)).
Defined.

(** ** The transcript as a whole *)

Lemma turnsOf_snoc r l m :
  turnsOf r (l ++ [m]) = (turnsOf r l + if isRole r m then 1 else 0)%nat.
Proof. induction l as [|x l IH]; simpl; [lia|]. rewrite IH. lia. Qed.

Lemma scripted_lines_nonempty :
  greeting ≠ [] ∧ emptyReplyLine ≠ [] ∧ failureLine ≠ [].
Proof. by split_and!. Qed.

(** The text of the assistant turn that [handleSendMessage] appends when
    its call settles is never empty. *)
Lemma handleSendMessage_resume_appends o a :
  ∃ reply, reply ≠ []
    ∧ chatMessages (handleSendMessage_resume o a)
      = chatMessages a ++ [{| role := bot; text := reply |}]
    ∧ isTyping (handleSendMessage_resume o a) = false.
Proof.
  destruct scripted_lines_nonempty as (_ & Hempty & Hfail).
  destruct o as [[t|]|err]; simpl.
  - destruct t as [|c t]; simpl.
    + by exists emptyReplyLine.
    + by exists (c :: t).
  - by exists emptyReplyLine.
  - by exists failureLine.
Qed.

Lemma handle_transcript e w w' :
  handle e w = Some w' →
  chatMessages (app w) `prefix_of` chatMessages (app w')
  ∧ (transcriptOk w → transcriptOk w').
Proof.
  destruct e; simpl; intros H.
  - by simplify_eq.
  - apply bind_Some in H as (fm & Hf & H).
    apply bind_Some in H as (fm' & Hs & H). by simplify_eq.
  - apply bind_Some in H as (fm & Hf & H).
    destruct (isSubmitDisabled (state fm)); by simplify_eq.
  - apply bind_Some in H as (params & Hi & H).
    destruct o; simpl in H; by simplify_eq.
  - destruct (resultVisible _); [|done].
    apply bind_Some in H as (p & _ & H). by simplify_eq.
  - destruct (resultVisible _); by simplify_eq.
  - destruct (resultVisible _); by simplify_eq.
  - destruct (bool_decide _); by simplify_eq.
  - destruct (bool_decide _); [|done].
    unfold handleSendMessage_call in H.
    destruct (truthy (trim (chatInput (app w)))) eqn:Hblank; simpl in H;
      simplify_eq; [|done].
    apply truthy_true in Hblank. simpl.
    split; [by apply prefix_app_r|].
    intros ([rest Hg] & Hall & Hcount & Htyping). unfold transcriptOk. simpl.
    split_and!.
    + rewrite Hg. by eexists.
    + apply Forall_app. split; [done|]. by constructor.
    + rewrite !turnsOf_snoc. simpl. lia.
    + intros _. lia.
  - destruct (chatting w) as [|n] eqn:Hn; [done|]. simplify_eq.
    destruct (handleSendMessage_resume_appends o (app w))
      as (reply & Hreply & Hmsgs & Htyp).
    cbn [app setChatting onApp chatting]. rewrite Hmsgs.
    split; [by apply prefix_app_r|].
    intros ([rest Hg] & Hall & Hcount & Htyping). unfold transcriptOk.
    cbn [app setChatting onApp chatting].
    rewrite Hmsgs, Htyp. rewrite Hn in Hcount.
    split_and!.
    + rewrite Hg. by eexists.
    + apply Forall_app. split; [done|]. by constructor.
    + rewrite !turnsOf_snoc. simpl. lia.
    + done.
Qed.

Lemma step_transcript e w w' :
  step e w = Some w' →
  chatMessages (app w) `prefix_of` chatMessages (app w')
  ∧ (transcriptOk w → transcriptOk w').
Proof.
  unfold step. intros H. apply fmap_Some in H as (w1 & Hh & ->).
  destruct (handle_transcript _ _ _ Hh) as [Hpre Hok].
  assert (chatting (render w1) = chatting w1) as Hc
    by (unfold render; by destruct (formVisible _), (form w1)).
  rewrite render_app. split; [done|].
  intros Hw. specialize (Hok Hw). unfold transcriptOk in *.
  by rewrite render_app, Hc.
Qed.

Lemma run_transcript es w w' :
  run es w = Some w' →
  chatMessages (app w) `prefix_of` chatMessages (app w')
  ∧ (transcriptOk w → transcriptOk w').
Proof.
  revert w. induction es as [|e es IH]; simpl; intros w H.
  - by simplify_eq.
  - apply bind_Some in H as (w1 & H1 & H).
    destruct (step_transcript _ _ _ H1) as (Hp1 & Hok1).
    destruct (IH _ H) as [Hp2 Hok2].
    split; [by etrans | auto].
Qed.

Lemma boot_transcriptOk : transcriptOk boot.
Proof.
  split_and!; simpl; [by eexists | | done | done].
  constructor; [|constructor]. unfold turnOk. simpl.
  apply scripted_lines_nonempty.
Qed.

(** X14.  The transcript only grows at its end: whatever happens between two
    states of the page, the earlier transcript is a prefix of the later
    one, and its first entry is always the scripted greeting. *)
Theorem transcript_is_append_only (es1 es2 : list Event) (w1 w2 : World)
    (Hrun1 : run es1 boot = Some w1)
    (Hrun2 : run es2 w1 = Some w2) :
  chatMessages (app w1) `prefix_of` chatMessages (app w2)
  ∧ chatMessages (app w1) !! 0%nat = Some {| role := bot; text := greeting |}
  ∧ chatMessages (app w2) !! 0%nat = Some {| role := bot; text := greeting |}
  ∧ (length (chatMessages (app w1)) ≤ length (chatMessages (app w2)))%nat.
Proof.
  destruct (run_transcript _ _ _ Hrun1) as [Hp1 Hok1].
  destruct (run_transcript _ _ _ Hrun2) as [Hp2 Hok2].
  destruct (Hok1 boot_transcriptOk) as ([r1 Hg1] & _).
  destruct (Hok2 (Hok1 boot_transcriptOk)) as ([r2 Hg2] & _).
  split_and!; [done | by rewrite Hg1 | by rewrite Hg2 |].
  by apply prefix_length.
Qed.

Lemma transcript_is_append_only_witness :
  ∃ w1 w2, run sendHallo boot = Some w1
           ∧ run [GenerateContentSettles (Responded None)] w1 = Some w2
           ∧ chatMessages (app w1) `prefix_of` chatMessages (app w2).
Proof.
  assert (is_Some (w1 ← run sendHallo boot;
                   run [GenerateContentSettles (Responded None)] w1))
    as [w2 H] by (vm_compute; by eexists).
  apply bind_Some in H as (w1 & H1 & H2).
  exists w1, w2. split_and!; [done | done |].
  exact (proj1 (transcript_is_append_only _ _ w1 w2 H1 H2)).
Defined.

(** X15.  Every user turn has a text that is not blank and every assistant
    turn a text that is not empty; each user turn is answered by exactly
    one assistant turn once its call has settled, so the assistant turns
    (the greeting included) and the calls still pending together number
    one more than the user turns; and the typing indicator is on only
    while a call is pending. *)
Theorem transcript_turns_balance (es : list Event) (w : World)
    (Hrun : run es boot = Some w) :
  Forall turnOk (chatMessages (app w))
  ∧ (turnsOf bot (chatMessages (app w)) + chatting w)%nat
    = S (turnsOf user (chatMessages (app w)))
  ∧ (chatting w = 0%nat →
       turnsOf bot (chatMessages (app w)) = S (turnsOf user (chatMessages (app w)))
       ∧ isTyping (app w) = false).
Proof.
  destruct (run_transcript _ _ _ Hrun) as [_ Hok].
  destruct (Hok boot_transcriptOk) as (_ & Hall & Hcount & Htyping).
  split_and!; [done | done |].
  intros Hz. rewrite Hz in *. split; [lia|].
  destruct (isTyping (app w)); [|done]. specialize (Htyping eq_refl). lia.
Qed.

Lemma transcript_turns_balance_witness :
  ∃ w, run (sendHallo ++ [GenerateContentSettles (Responded None)]) boot = Some w
       ∧ Forall turnOk (chatMessages (app w)).
Proof.
  destruct (run (sendHallo ++ [GenerateContentSettles (Responded None)]) boot)
    as [w|] eqn:Hrun; [|vm_compute in Hrun; discriminate].
  exists w. split; [reflexivity|].
  exact (proj1 (transcript_turns_balance _ w Hrun)).
Defined.

(** X16.  A send with a blank input is ignored: nothing is appended, the input
    is kept and no call is made. *)
Theorem blank_message_is_ignored (w : World)
    (Hblank : Forall (λ c, isWhiteSpace c = true) (chatInput (app w)))
    (Htab : activeTab (app w) = dialog) :
  handle SendMessage w = Some w.
Proof.
  simpl. rewrite Htab. simpl.
  unfold handleSendMessage_call. apply trim_nil_iff in Hblank. by rewrite Hblank.
Qed.

Lemma blank_message_is_ignored_witness :
  handle SendMessage (onApp (setChatInput (js "  ")) (onApp (setActiveTab dialog) boot))
  = Some (onApp (setChatInput (js "  ")) (onApp (setActiveTab dialog) boot)).
Proof.
  apply blank_message_is_ignored.
  - by_eval.
  - reflexivity.
Defined.

(** ** Invariants of the form when reads settle first *)

Section SettledInvariant.
Variable P : FormState → Prop.
Hypothesis P_mount : P (mountForm None).
Hypothesis P_quiet : ∀ e fm fm',
  isPickOrRead e = false → P (state fm) → formStep e fm = Some fm' →
  P (state fm').
Hypothesis P_pair : ∀ sl f ev fm fm1 fm2,
  P (state fm) → reads fm = [] →
  formStep (PickFile sl f) fm = Some fm1 →
  formStep (ReadSettles 0 ev) fm1 = Some fm2 →
  P (state fm2).

Lemma render_holds w :
  initialFormValues (app w) = None → holdsOn P w → holdsOn P (render w).
Proof.
  intros Hiv Hw. unfold holdsOn, render.
  destruct (formVisible (app w)); [|done].
  destruct (form w) eqn:Hf; [exact Hw|].
  simpl. intros ? [= <-]. simpl. by rewrite Hiv.
Qed.

Lemma step_holds_quiet e w w' :
  (∀ fe, e = OnForm fe → isPickOrRead fe = false) →
  noExtend w → holdsOn P w → step e w = Some w' → holdsOn P w'.
Proof.
  intros He Hne Hw H. unfold step in H.
  apply fmap_Some in H as (w1 & Hh & ->).
  apply render_holds; [by destruct (handle_noExtend _ _ _ Hne Hh)|].
  assert ((∃ fe, e = OnForm fe) ∨ ∀ fe, e ≠ OnForm fe) as [[fe ->]|Hq]
    by (destruct e; eauto).
  - simpl in Hh. apply bind_Some in Hh as (fm & Hf & Hh).
    apply bind_Some in Hh as (fm' & Hs & Hh). simplify_eq.
    unfold holdsOn. simpl. intros ? [= <-]. eauto.
  - unfold holdsOn. by rewrite (handle_form_frame _ _ _ Hq Hh).
Qed.

Lemma step_holds_pair sl f ev w w1 w2 :
  settled w → holdsOn P w → step (OnForm (PickFile sl f)) w = Some w1 →
  step (OnForm (ReadSettles 0 ev)) w1 = Some w2 → holdsOn P w2.
Proof.
  intros [Hne Hform] Hw H1 H2.
  apply step_OnForm in H1 as (fm & fm1 & Hf & Hs1 & ->).
  apply step_OnForm in H2 as (fm1' & fm2 & Hf1 & Hs2 & ->).
  destruct (Hform _ Hf) as [Hreads _].
  unfold holdsOn, render in Hf1 |- *. simpl in Hf1 |- *.
  destruct (formVisible (app w)) eqn:Hvis; simpl in Hf1 |- *;
    rewrite ?Hvis; simpl; [|done].
  simplify_eq. intros ? [= <-]. eauto.
Qed.

Lemma run_holds es w w' :
  readsSettleFirst es = true → settled w → holdsOn P w →
  run es w = Some w' → holdsOn P w'.
Proof.
  remember (length es) as n eqn:Hn. revert es w Hn.
  induction (lt_wf n) as [n _ IH]. intros es w -> Hes Hset Hw H.
  destruct es as [|e es]; simpl in H; [by simplify_eq|].
  apply bind_Some in H as (w1 & H1 & H).
  assert ((∃ sl f, e = OnForm (PickFile sl f))
          ∨ (∃ i ev, e = OnForm (ReadSettles i ev))
          ∨ (∀ fe, e = OnForm fe → isPickOrRead fe = false))
    as [(sl & f & ->)|[(i & ev & ->)|Hq]].
  { destruct e as [| fe | | | | | | | |]; try (right; right; intros ? [=]; done).
    destruct fe; eauto; right; right; by intros ? [= <-]. }
  - simpl in Hes. destruct es as [|e2 es]; [done|].
    destruct e2 as [| [] | | | | | | | |]; try done.
    destruct i; [|done].
    simpl in H. apply bind_Some in H as (w2 & H2 & H).
    eapply (IH (length es)); [simpl; lia | done | done | | | done].
    + by eapply step_settled_pair.
    + by eapply step_holds_pair.
  - done.
  - assert (readsSettleFirst es = true) as Hes'.
    { destruct e as [| fe | | | | | | | |]; try done.
      specialize (Hq _ eq_refl). by destruct fe. }
    eapply (IH (length es)); [simpl; lia | done | done | | | done].
    + by eapply step_settled_quiet.
    + destruct Hset as [Hne _]. by eapply step_holds_quiet.
Qed.
End SettledInvariant.

Lemma formStep_quiet_mediaInMode e fm fm' :
  isPickOrRead e = false → mediaInMode (state fm) → formStep e fm = Some fm' →
  mediaInMode (state fm').
Proof.
  intros He [Hframes Hrefs].
  destruct e; try discriminate He; simpl; intros H; try by_guard H;
    simplify_option_eq;
    repeat match goal with
    | H : _ && _ = true |- _ => apply andb_true_iff in H as [? ?]
    | H : isRefMode _ = true |- _ => apply isRefMode_true in H
    | H : isAnimateMode _ = true |- _ => apply isAnimateMode_true in H
    end;
    try done; unfold mediaInMode; simpl; try (split; done).
  - unfold selectMode. destruct (decide _); [|destruct m]; simpl;
      (split; [intros [[? ?]|[? ?]]; done | done]).
  - unfold onLoopChange. destruct checked; simpl; split; done.
Qed.

Lemma formStep_pair_mediaInMode sl f ev fm fm1 fm2 :
  mediaInMode (state fm) → reads fm = [] →
  formStep (PickFile sl f) fm = Some fm1 →
  formStep (ReadSettles 0 ev) fm1 = Some fm2 →
  mediaInMode (state fm2).
Proof.
  intros [Hframes Hrefs] Hreads. simpl. intros H1. by_guard H1. simplify_eq.
  rewrite Hreads. simpl. intros [= <-]. simpl.
  destruct (fileToBase64 f ev) as [media|]; simpl; [|done].
  destruct sl; simpl in *;
    repeat match goal with
    | H : _ && _ = true |- _ => apply andb_true_iff in H as [? ?]
    | H : isRefMode _ = true |- _ => apply isRefMode_true in H
    | H : isAnimateMode _ = true |- _ => apply isAnimateMode_true in H
    | H : isExtendMode _ = true |- _ => apply isExtendMode_true in H
    end; split; simpl; done.
Qed.

Lemma mountForm_mediaInMode : mediaInMode (mountForm None).
Proof. split; simpl; [intros [[? ?]|[? ?]]; done | done]. Qed.

(** X17.  When every file read settles before the next event, media
    cells are filled only in the mode that uses them: a start or end
    frame is held only in animate mode and reference images only in
    references mode. *)
Theorem media_only_in_their_mode (es : list Event) (w : World) (fm : Form)
    (Hsettle : readsSettleFirst es = true)
    (Hrun : run es boot = Some w)
    (Hform : form w = Some fm) :
  (is_Some (startFrame (fields (state fm))) → mode (fields (state fm)) = ANIMATE_IMAGE)
  ∧ (is_Some (endFrame (fields (state fm))) → mode (fields (state fm)) = ANIMATE_IMAGE)
  ∧ (referenceImages (fields (state fm)) ≠ [] →
       mode (fields (state fm)) = REFERENCES_TO_VIDEO)
  ∧ (mode (fields (state fm)) = TEXT_TO_VIDEO →
       startFrame (fields (state fm)) = None ∧ endFrame (fields (state fm)) = None
       ∧ referenceImages (fields (state fm)) = []).
Proof.
  assert (holdsOn mediaInMode boot) as Hboot.
  { unfold holdsOn. simpl. intros ? [= <-]. apply mountForm_mediaInMode. }
  pose proof (run_holds mediaInMode mountForm_mediaInMode
                formStep_quiet_mediaInMode formStep_pair_mediaInMode
                es boot w Hsettle boot_settled Hboot Hrun fm Hform) as [Hframes Hrefs].
  split_and!; [by auto | by auto | done |].
  intros Hm. split_and!.
  - destruct (startFrame (fields (state fm))) eqn:Hs; [|done].
    assert (mode (fields (state fm)) = ANIMATE_IMAGE) by (apply Hframes; left; by eexists).
    congruence.
  - destruct (endFrame (fields (state fm))) eqn:Hs; [|done].
    assert (mode (fields (state fm)) = ANIMATE_IMAGE) by (apply Hframes; right; by eexists).
    congruence.
  - destruct (referenceImages (fields (state fm))) eqn:Hs; [done|].
    assert (mode (fields (state fm)) = REFERENCES_TO_VIDEO) by by apply Hrefs.
    congruence.
Qed.

Lemma media_only_in_their_mode_witness :
  ∃ w fm, run threeReferences boot = Some w ∧ form w = Some fm
          ∧ (referenceImages (fields (state fm)) ≠ [] →
               mode (fields (state fm)) = REFERENCES_TO_VIDEO).
Proof.
  assert (is_Some (w ← run threeReferences boot; form w)) as [fm H]
    by (vm_compute; by eexists).
  apply bind_Some in H as (w & Hrun & Hform).
  exists w, fm. split_and!; [done | done |].
  exact (proj1 (proj2 (proj2 (media_only_in_their_mode threeReferences w fm
                                 eq_refl Hrun Hform)))).
Defined.

Lemma looping_without_end_frame_when_settled_witness :
  ∃ w fm, run loopAfterRead boot = Some w ∧ form w = Some fm
          ∧ isLooping (fields (state fm)) = true
          ∧ endFrame (fields (state fm)) = None.
Proof.
  assert ((w ← run loopAfterRead boot; fm ← form w;
           Some (isLooping (fields (state fm)))) = Some true)
    as H by (vm_compute; reflexivity).
  apply bind_Some in H as (w & Hrun & H).
  apply bind_Some in H as (fm & Hform & [= Hloop]).
  exists w, fm. split_and!; [done | done | done |].
  exact (looping_without_end_frame_when_settled loopAfterRead w fm
           eq_refl Hrun Hform Hloop).
Defined.
